(** * barplots: tick/label layout and style resolution

    A shallow embedding of [barplots/utils/plot_bar_labels.py] and
    [barplots/utils/plot_boxplots.py].

    Conventions of the embedding.
    - A Python float is a finite binary64 value, carried as the rational
      it denotes in canonical form ([Qc]), so that [==] on floats is
      Leibniz equality. [round], [+] and [*] on tick positions round to
      the nearest binary64 value as the interpreter does; infinities, NaN
      and overflow are not modelled. The thresholds of the rotation
      heuristics are compared without rounding.
    - The matplotlib [Axes] object is a log of the calls made on it, in
      call order; an exception leaves the log as it was when raised.
    - Helpers that live outside the two modelled files
      ([get_max_bar_position], [text_positions], [bar_positions],
      [sanitize_ml_labels], [get_best_match]) are section variables;
      [get_best_match] is, in addition, modelled from the specification.
    - A table index is a tuple of category names, outermost first. *)

From Stdlib Require Import QArith Qcanon ZArith.
From stdpp Require Import base decidable option numbers list strings gmap.

Local Open Scope Z_scope.

(** ** Exceptions and the effect monad *)

Inductive exception : Type :=
  | ValueError
  | ZeroDivisionError
  | TypeError
  | IndexError
  | NoStyleMatch.

Inductive result (A : Type) : Type :=
  | Ok (a : A)
  | Raise (e : exception).
Arguments Ok {A} a.
Arguments Raise {A} e.

#[global] Instance exception_eq_dec : EqDecision exception.
Proof. solve_decision. Defined.
#[global] Instance result_eq_dec {A} `{EqDecision A} : EqDecision (result A).
Proof. solve_decision. Defined.

#[global] Instance result_ret : MRet result := λ A, Ok.
#[global] Instance result_bind : MBind result :=
  λ A B f m, match m with Ok a => f a | Raise e => Raise e end.

(** A computation that may raise and that appends calls of type [C] to the
    log of the drawing surface. *)
Definition Eff (C A : Type) : Type := list C → result A * list C.

#[global] Instance Eff_ret {C} : MRet (Eff C) := λ A a log, (Ok a, log).
#[global] Instance Eff_bind {C} : MBind (Eff C) :=
  λ A B f m log,
    match m log with
    | (Ok a, log') => f a log'
    | (Raise e, log') => (Raise e, log')
    end.

Definition lift {C A} (r : result A) : Eff C A := λ log, (r, log).
Definition call {C} (c : C) : Eff C unit := λ log, (Ok tt, log ++ [c]).

(** ** Python primitives *)

(** The integer nearest to a rational, ties to even. *)
Definition round_half_even (q : Q) : Z :=
  let n := Qnum q in
  let d := Z.pos (Qden q) in
  let f := n / d in
  match 2 * (n mod d) ?= d with
  | Lt => f
  | Gt => f + 1
  | Eq => if Z.even f then f else f + 1
  end.

(** [2^e] *)
Definition pow2 (e : Z) : Q :=
  if decide (0 ≤ e) then inject_Z (2 ^ e) else 1 # Z.to_pos (2 ^ (- e)).

(** The exponent [e] with [2^e <= |q| < 2^(e+1)], for [q] other than 0. *)
Definition floor_log2 (q : Q) : Z :=
  let k := Z.log2 (Z.abs (Qnum q)) - Z.log2 (Z.pos (Qden q)) in
  if Qle_bool (pow2 k) (Z.abs (Qnum q) # Qden q) then k else k - 1.

(** The float nearest to a rational, ties to even: a significand of 53
    bits, and below [2^-1022] the fixed spacing [2^-1074] of the
    subnormal numbers. *)
Definition binary64 (x : Qc) : Qc :=
  let ulp := pow2 (Z.max (floor_log2 x) (-1022) - 52) in
  Q2Qc (inject_Z (round_half_even (x / ulp)) * ulp).

(** [a + b] and [a * b] on floats: the exact result, rounded. *)
Definition float_add (a b : Qc) : Qc := binary64 (a + b)%Qc.
Definition float_mul (a b : Qc) : Qc := binary64 (a * b)%Qc.

(** [round(x, ndigits)] on a float: the decimal with [ndigits] digits
    after the point nearest to [x], ties to even, then the float nearest
    to that decimal. *)
Definition py_round (x : Qc) (ndigits : nat) : Qc :=
  let scale := Z.to_pos (10 ^ Z.of_nat ndigits) in
  binary64 (Q2Qc (round_half_even (x * inject_Z (Z.pos scale)) # scale)).

(** [a / b] with an [int] divisor. *)
Definition py_div (a : Qc) (b : nat) : result Qc :=
  if decide (b = 0%nat) then Raise ZeroDivisionError
  else Ok (a / Qc_of_Z (Z.of_nat b))%Qc.

(** [max(...)] of a generator of [int]s. *)
Definition py_max (l : list nat) : result nat :=
  match l with
  | [] => Raise ValueError
  | x :: l' => Ok (foldr Nat.max x l')
  end.

(** Line 76, unpacking the transposed pairs into [positions, labels]: the
    unpacking needs exactly two tuples, which [zip] yields for every
    non-empty list of pairs and for no empty one. *)
Definition py_unzip {A B} (pairs : list (A * B)) : result (list A * list B) :=
  match pairs with
  | [] => Raise ValueError
  | _ => Ok (pairs.*1, pairs.*2)
  end.

(** [reversed(range(lo, hi))] *)
Definition py_range (lo hi : Z) : list Z := seqZ lo (hi - lo).

(** [len(set(labels))] *)
Definition distinct_count (labels : list string) : nat :=
  length (remove_dups labels).

(** ** The drawing surface of [plot_bar_labels] *)

Inductive axis : Type := AxisX | AxisY.
Inductive which : Type := Major | Minor.

(** [minor_rotation] and [major_rotation] are [Union[float, str]]. *)
Inductive rotation : Type :=
  | RotStr (s : string)
  | RotNum (q : Qc).

#[global] Instance axis_eq_dec : EqDecision axis.
Proof. solve_decision. Defined.
#[global] Instance which_eq_dec : EqDecision which.
Proof. solve_decision. Defined.
#[global] Instance rotation_eq_dec : EqDecision rotation.
Proof. solve_decision. Defined.

(** Keyword arguments of [Axes.tick_params]; [None] is "not passed". *)
Record tick_kwargs : Type := TickKwargs {
  tk_axis : axis;
  tk_which : which;
  tk_labelsize : option nat;
  tk_labelrotation : option rotation;
  tk_direction : option string;
  tk_length : option nat;
  tk_width : option nat
}.

Inductive axes_call : Type :=
  | set_ylabel (text : string)
  | locator_params (a : axis) (nbins : nat)
  | set_major_formatter (a : axis)  (* FuncFormatter(sanitize_digits) *)
  | set_ticks (a : axis) (positions : list Qc) (minor : bool)
  | set_ticklabels (a : axis) (labels : list string) (minor : bool)
      (align : string)
  | tick_params (kw : tick_kwargs).

#[global] Instance tick_kwargs_eq_dec : EqDecision tick_kwargs.
Proof. solve_decision. Defined.
#[global] Instance axes_call_eq_dec : EqDecision axes_call.
Proof. solve_decision. Defined.

Definition Axes : Type := list axes_call.

Definition which_of (minor : bool) : which := if minor then Minor else Major.

Definition is_auto (r : rotation) : bool :=
  match r with
  | RotStr s => bool_decide (s = "auto"%string)
  | RotNum _ => false
  end.

(** [rot > 80]; comparing a [str] with an [int] raises. *)
Definition rotation_gt (r : rotation) (bound : Qc) : result bool :=
  match r with
  | RotStr _ => Raise TypeError
  | RotNum q => Ok (bool_decide (bound < q)%Qc)
  end.

Definition Qc_of_nat (n : nat) : Qc := Qc_of_Z (Z.of_nat n).

(** [width * 0.0002]; the literal is the float nearest to 2/10000. *)
Definition jitter (width : Qc) : Qc :=
  float_mul width (binary64 (Q2Qc (2 # 10000))).

(** ** [plot_bar_labels] *)

(** Lines 85-92: round, then nudge what an earlier level has emitted. *)
Definition nudge (width : Qc) (other_positions : gset Qc) (position : Qc)
    : Qc :=
  if decide (position ∈ other_positions)
  then float_add position (jitter width) else position.

Definition rounded (positions : list Qc) : list Qc :=
  (λ pos, py_round pos 5) <$> positions.

Definition final_positions (width : Qc) (other_positions : gset Qc)
    (positions : list Qc) : list Qc :=
  nudge width other_positions <$> rounded positions.

Section rotation_heuristics.
Variables (vertical : bool) (width : Qc).
Variables (minor : bool) (labels : list string).
Variable max_characters_number_in_labels : nat.

(** [len(set(labels)) <= width * k / max_characters_number_in_labels] *)
Definition count_le (k : Z) : result bool :=
  t ← py_div (width * Qc_of_Z k) max_characters_number_in_labels;
  Ok (bool_decide (Qc_of_nat (distinct_count labels) ≤ t)%Qc).

(** [len(set(labels)) >= width * k / max_characters_number_in_labels] *)
Definition count_ge (k : Z) : result bool :=
  t ← py_div (width * Qc_of_Z k) max_characters_number_in_labels;
  Ok (bool_decide (t ≤ Qc_of_nat (distinct_count labels))%Qc).

(** [a and b and c] with [b] fallible: [b] is evaluated only when [a]
    holds, [c] only when [b] holds too. *)
Definition and3 (a : bool) (b : result bool) (c : bool) : result bool :=
  if a then (t ← b; Ok (t && c)) else Ok false.

(** Lines 97-113. *)
Definition adapted_minor_rotation (minor_rotation : rotation)
    : result rotation :=
  if is_auto minor_rotation then
    c1 ← and3 minor (count_le 5) vertical;
    if c1 : bool then Ok (RotNum (Qc_of_Z 90)) else
    c2 ← and3 minor (count_le 20) (negb vertical);
    if c2 : bool then Ok (RotNum (Qc_of_Z 90)) else Ok (RotNum (Qc_of_Z 0))
  else Ok minor_rotation.

(** Lines 116-132. *)
Definition adapted_major_rotation (major_rotation : rotation)
    : result rotation :=
  if is_auto major_rotation then
    c1 ← and3 (negb minor) (count_le 5) (negb vertical);
    if c1 : bool then Ok (RotNum (Qc_of_Z 90)) else
    c2 ← and3 (negb minor) (count_ge 20) vertical;
    if c2 : bool then Ok (RotNum (Qc_of_Z 90)) else Ok (RotNum (Qc_of_Z 0))
  else Ok major_rotation.

(** Lines 150-153 and 181-184: the length of the paired major tick. *)
Definition major_tick_length (adapted_minor : rotation) : result nat :=
  gt80 ← rotation_gt adapted_minor (Qc_of_Z 80);
  if vertical then
    Ok (if gt80 : bool then (6 * max_characters_number_in_labels)%nat
        else 20%nat)
  else
    Ok (if gt80 : bool then 20%nat
        else (6 * max_characters_number_in_labels)%nat).

(** Lines 139-203: what is applied to the axes for a level that is not
    suppressed. *)
Definition emit_level (positions : list Qc)
    (adapted_minor adapted_major : rotation) : Eff axes_call unit :=
  if vertical then
    call (set_ticks AxisX positions minor);;
    call (set_ticklabels AxisX labels minor "center");;
    if minor then
      call (tick_params (TickKwargs AxisX Minor (Some 9%nat)
              (Some adapted_minor) None None None));;
      length ← lift (major_tick_length adapted_minor);
      call (tick_params (TickKwargs AxisX Major (Some 10%nat) None
              (Some "out"%string) (Some length) (Some 0%nat)))
    else
      call (tick_params (TickKwargs AxisX Major (Some 10%nat)
              (Some adapted_major) None None None))
  else
    call (set_ticks AxisY positions minor);;
    call (set_ticklabels AxisY labels minor "center");;
    if minor then
      call (tick_params (TickKwargs AxisY Minor (Some 9%nat)
              (Some adapted_minor) None None None));;
      length ← lift (major_tick_length adapted_minor);
      call (tick_params (TickKwargs AxisY Major (Some 10%nat) None
              (Some "out"%string) (Some length) (Some 0%nat)))
    else
      call (tick_params (TickKwargs AxisY Major None
              (Some adapted_major) None None None)).
End rotation_heuristics.

(** [reversed(range(max(levels-2, 0), levels))] *)
Definition level_window (levels : Z) : list Z :=
  reverse (py_range (Z.max (levels - 2) 0) levels).

(** The calls of lines 55-73, made before the loop. *)
Definition prelude (vertical unique_data_label : bool) : Axes :=
  (if unique_data_label then [set_ylabel ""] else [])
  ++ (if vertical
      then [locator_params AxisY 5; set_major_formatter AxisY]
      else [locator_params AxisX 5; set_major_formatter AxisX]).

Section plot_bar_labels.
Context {DataFrame : Type}.
Variable get_max_bar_position : DataFrame → Qc → Qc → Qc.
Variable text_positions : DataFrame → Qc → Qc → Z → list (Qc * string).
Variable sanitize_ml_labels :
  list (string * list string) → list string → list string.

Variables (df : DataFrame) (vertical : bool) (levels : Z).
Variables (bar_width space_width : Qc).
Variables (minor_rotation major_rotation : rotation).
Variables (unique_minor_labels unique_major_labels unique_data_label : bool).
Variable custom_defaults : list (string * list string).

(** One iteration of the loop of lines 75-203; the loop variable carried
    from one iteration to the next is [other_positions]. *)
Definition process_level (level : Z) (other_positions : gset Qc)
    : Eff axes_call (gset Qc) :=
  let width := get_max_bar_position df bar_width space_width in
  '(positions, labels) ←
    lift (py_unzip (text_positions df bar_width space_width level));
  let labels := sanitize_ml_labels custom_defaults labels in
  max_characters_number_in_labels ← lift (py_max (String.length <$> labels));
  let positions := final_positions width other_positions positions in
  let other_positions := other_positions ∪ list_to_set positions in
  let minor := bool_decide (level = levels - 1) in
  adapted_minor ←
    lift (adapted_minor_rotation vertical width minor labels
            max_characters_number_in_labels minor_rotation);
  adapted_major ←
    lift (adapted_major_rotation vertical width minor labels
            max_characters_number_in_labels major_rotation);
  if minor && unique_minor_labels then mret other_positions
  else if negb minor && unique_major_labels then mret other_positions
  else
    emit_level vertical minor labels max_characters_number_in_labels
      positions adapted_minor adapted_major;;
    mret other_positions.

(** What an iteration that completes hands to the next one (line 93). *)
Definition seen_after (other_positions : gset Qc) (level : Z) : gset Qc :=
  let width := get_max_bar_position df bar_width space_width in
  other_positions
  ∪ list_to_set (final_positions width other_positions
                   (text_positions df bar_width space_width level).*1).

Fixpoint for_levels (window : list Z) (other_positions : gset Qc)
    : Eff axes_call (gset Qc) :=
  match window with
  | [] => mret other_positions
  | level :: window' =>
      other_positions' ← process_level level other_positions;
      for_levels window' other_positions'
  end.

(** The positions emitted by strictly earlier iterations when [level] is
    reached: none for the deepest level, those of the deepest level for
    the one above it. *)
Definition earlier_positions (level : Z) : gset Qc :=
  if decide (level = levels - 1) then ∅ else seen_after ∅ (levels - 1).

Definition plot_bar_labels : Eff axes_call unit :=
  (if unique_data_label then call (set_ylabel "") else mret tt);;
  (if vertical then
     call (locator_params AxisY 5);; call (set_major_formatter AxisY)
   else
     call (locator_params AxisX 5);; call (set_major_formatter AxisX));;
  for_levels (level_window levels) ∅;;
  mret tt.
End plot_bar_labels.

(** ** [plot_boxplots] *)

(** The style maps are Python dicts. Their keys are the leaf category (a
    [str]) or a category path (a [tuple]); iteration follows insertion
    order, so a dict is an association list read at the first entry of a
    key. *)
Inductive key : Type :=
  | KStr (s : string)
  | KTuple (t : list string).

#[global] Instance key_eq_dec : EqDecision key.
Proof. solve_decision. Defined.

Definition dict (V : Type) : Type := list (key * V).

Fixpoint dict_get {V} (d : dict V) (k : key) : option V :=
  match d with
  | [] => None
  | (k', v) :: d' => if decide (k' = k) then Some v else dict_get d' k
  end.

(** [index[-1]] *)
Definition py_last (index : list string) : result string :=
  match last index with
  | Some leaf => Ok leaf
  | None => Raise IndexError
  end.

(** Keyword arguments received by the drawing primitive [plot_boxplot]. *)
Record boxplot_call : Type := BoxplotCall {
  bp_x : Qc;
  bp_y : Qc;
  bp_std : Qc;
  bp_bar_width : Qc;
  bp_alpha : Qc;
  bp_color : string;
  bp_hatch : option string;
  bp_label : string
}.

Section plot_boxplots.
Context {DataFrame : Type}.
Variable bar_positions :
  DataFrame → Qc → Qc → list (Qc * Qc * Qc * list string).
Variable get_best_match : ∀ V : Type, dict V → list string → result V.

(** Lines 48-52 and 53-57: [d[index[-1]] if index[-1] in d else
    get_best_match(d, (top_index, *index))]. *)
Definition resolve_style {V} (d : dict V) (top_index : string)
    (index : list string) : result V :=
  leaf ← py_last index;
  match dict_get d (KStr leaf) with
  | Some v => Ok v
  | None => get_best_match V d (top_index :: index)
  end.

(** Lines 58-66. *)
Definition resolve_hatch (hatch : option (dict string)) (top_index : string)
    (index : list string) : result (option string) :=
  match hatch with
  | None => Ok None
  | Some d => h ← resolve_style d top_index index; Ok (Some h)
  end.

Variables (df : DataFrame) (bar_width space_width : Qc).
Variables (alphas : dict Qc) (colors : dict string).
Variable hatch : option (dict string).
Variable top_index : string.

Definition plot_one (bar : Qc * Qc * Qc * list string)
    : Eff boxplot_call unit :=
  let '(x, y, std, index) := bar in
  alpha ← lift (resolve_style alphas top_index index);
  color ← lift (resolve_style colors top_index index);
  h ← lift (resolve_hatch hatch top_index index);
  label ← lift (py_last index);
  call (BoxplotCall x y std bar_width alpha color h label).

Fixpoint for_bars (bars : list (Qc * Qc * Qc * list string))
    : Eff boxplot_call unit :=
  match bars with
  | [] => mret tt
  | bar :: bars' => plot_one bar;; for_bars bars'
  end.

Definition plot_boxplots : Eff boxplot_call unit :=
  for_bars (bar_positions df bar_width space_width).
End plot_boxplots.

(** *** The best-match resolver

    [barplots/utils/get_best_match.py] is not among the sources; the
    resolver is modelled from section 4.2 of the specification. *)

(** Modelled from the spec: the categories a key of [get_best_match] is
    made of; a [str] key is a path of one category. *)
Definition key_parts (k : key) : list string :=
  match k with
  | KStr s => [s]
  | KTuple t => t
  end.

(** Modelled from the spec: "matching contiguous ... subsequence of
    [category_tuple]" in [get_best_match]. *)
Fixpoint contiguous_in (part whole : list string) : bool :=
  bool_decide (part `prefix_of` whole)
  || match whole with
     | [] => false
     | _ :: whole' => contiguous_in part whole'
     end.

Definition key_matches (category_tuple : list string) (k : key) : bool :=
  contiguous_in (key_parts k) category_tuple.

(** Modelled from the spec: the tie-break of [get_best_match], "when
    multiple keys match the same length, prefer the one appearing first in
    the map's iteration (insertion order)". *)
Fixpoint longest_key (candidates : list key) : option key :=
  match candidates with
  | [] => None
  | k :: rest =>
      match longest_key rest with
      | Some k' =>
          if decide (length (key_parts k) < length (key_parts k'))%nat
          then Some k' else Some k
      | None => Some k
      end
  end.

(** Modelled from the spec: [get_best_match], which is not among the
    sources. "Find the mapping key that is the longest matching contiguous
    suffix/prefix-compatible subsequence of [category_tuple]"; it "fails
    with [NoStyleMatch] if no key matches". A key matches when it occurs
    in the tuple as a run of consecutive categories, which covers the
    suffixes, the full tuple and the top-level index name. *)
Definition get_best_match (V : Type) (items : dict V)
    (category_tuple : list string) : result V :=
  match longest_key (filter (λ k, key_matches category_tuple k = true)
                       items.*1) with
  | Some k =>
      match dict_get items k with
      | Some v => Ok v
      | None => Raise NoStyleMatch
      end
  | None => Raise NoStyleMatch
  end.

(** ** The rotation and tick-length heuristics as the specification words
    them, for comparison with the code *)

(** Section 4.3, step 4: [density = distinct_label_count / max_label_len];
    a minor level is rotated when [density <= total_width * k], with
    [k = 5] on a value-vertical axis and [k = 20] on a value-horizontal
    one. *)
Definition spec_density (distinct_label_count max_label_len : nat) : Qc :=
  (Qc_of_nat distinct_label_count / Qc_of_nat max_label_len)%Qc.

Definition spec_minor_rotation (vertical : bool) (total_width : Qc)
    (distinct_label_count max_label_len : nat) : rotation :=
  let k := if vertical then Qc_of_Z 5 else Qc_of_Z 20 in
  if bool_decide (spec_density distinct_label_count max_label_len
                  ≤ total_width * k)%Qc
  then RotNum (Qc_of_Z 90) else RotNum (Qc_of_Z 0).


(** Section 4.3, step 6: a rotation above 80 extends the paired major tick
    to 6 times the maximum label length, otherwise the length is 20, on
    either orientation. *)
Definition spec_major_tick_length (rotation_exceeds_80 : bool)
    (max_label_len : nat) : nat :=
  if rotation_exceeds_80 then (6 * max_label_len)%nat else 20%nat.

(** ** Observations on the call log *)

(** The calls a computation makes on a fresh surface. *)
Definition calls_of {C A} (m : Eff C A) : list C := (m []).2.
Definition outcome_of {C A} (m : Eff C A) : result A := (m []).1.

(** The positions handed to [set_xticks] / [set_yticks], in call order. *)
Definition ticks_of (c : axes_call) : list Qc :=
  match c with
  | set_ticks _ positions _ => positions
  | _ => []
  end.

Definition emitted_positions (log : Axes) : list Qc := log ≫= ticks_of.

(** The call that sets the major tick paired with an emitted minor level
    (lines 155-162 and 186-197). *)
Definition paired_major_tick (vertical : bool) (length : nat) : axes_call :=
  tick_params (TickKwargs (if vertical then AxisX else AxisY) Major
                 (Some 10%nat) None (Some "out"%string) (Some length)
                 (Some 0%nat)).

(** The lengths given to the major ticks, in call order. *)
Definition major_tick_lengths (log : Axes) : list nat :=
  log ≫= λ c,
    match c with
    | tick_params (TickKwargs _ Major _ _ _ (Some length) _) => [length]
    | _ => []
    end.

(** [c] sets positions, labels or label rotation of the ticks of kind [w]. *)
Definition level_call (w : which) (c : axes_call) : bool :=
  match c with
  | set_ticks _ _ minor => bool_decide (which_of minor = w)
  | set_ticklabels _ _ minor _ => bool_decide (which_of minor = w)
  | tick_params kw =>
      bool_decide (tk_which kw = w) && bool_decide (is_Some (tk_labelrotation kw))
  | _ => false
  end.

(** If [c] sets positions, labels or label rotation of a kind of ticks,
    it is the kind of [level], and that kind is not suppressed. *)
Definition allowed (levels : Z) (unique_minor_labels unique_major_labels : bool)
    (level : Z) (c : axes_call) : Prop :=
  ∀ w, level_call w c = true →
       w = which_of (bool_decide (level = levels - 1))
       ∧ match w with
         | Minor => unique_minor_labels
         | Major => unique_major_labels
         end = false.

(** Every call that a computation adds to the log satisfies [P], whether
    it returns or raises. *)
Definition adds {C A} (P : C → Prop) (m : Eff C A) : Prop :=
  ∀ log, ∃ new, (m log).2 = log ++ new ∧ Forall P new.

(** ** Fixtures for the examples: a table given by its width and by the
    (position, label) pairs of each level *)

Record fixture : Type := Fixture {
  fx_width : Qc;
  fx_pairs : Z → list (Qc * string)
}.

Definition fx_get_max_bar_position (t : fixture) (_ _ : Qc) : Qc := fx_width t.
Definition fx_text_positions (t : fixture) (_ _ : Qc) (level : Z)
    : list (Qc * string) := fx_pairs t level.
Definition fx_sanitize (_ : list (string * list string)) (labels : list string)
    : list string := labels.

(** The float that the decimal literal [n/d] denotes. *)
Definition qc (n : Z) (d : positive) : Qc := binary64 (Q2Qc (n # d)).

(** One level, two bars a millionth apart. *)
Definition close_bars : fixture :=
  Fixture (qc 1 1)
    (λ level, if decide (level = 0)
              then [(qc 1 1000000, "a"%string); (qc 2 1000000, "b"%string)]
              else []).

(** Two groups: bars at 1 and 2 under "A" (centre 3/2), one bar at 4
    under "B" (centre 4, where the minor tick already is). *)
Definition two_groups : fixture :=
  Fixture (qc 5 1)
    (λ level,
       if decide (level = 1)
       then [(qc 1 1, "x"%string); (qc 2 1, "y"%string); (qc 4 1, "x"%string)]
       else if decide (level = 0)
       then [(qc 3 2, "A"%string); (qc 4 1, "B"%string)]
       else []).

(** A wide table whose offset [2500 * 0.0002 = 1/2] is the distance
    between two minor ticks. *)
Definition wide_table : fixture :=
  Fixture (qc 2500 1)
    (λ level,
       if decide (level = 1)
       then [(qc 1 1, "x"%string); (qc 3 2, "y"%string)]
       else if decide (level = 0)
       then [(qc 1 1, "A"%string)]
       else []).

(** One level with three distinct two-character labels on a unit span. *)
Definition three_labels : fixture :=
  Fixture (qc 1 1)
    (λ level,
       if decide (level = 0)
       then [(qc 2 10, "aa"%string); (qc 5 10, "bb"%string);
             (qc 8 10, "cc"%string)]
       else []).

Definition auto : rotation := RotStr "auto".

Definition run_fixture (t : fixture) (vertical : bool) (levels : Z)
    (minor_rotation major_rotation : rotation)
    (unique_minor_labels unique_major_labels unique_data_label : bool)
    : Eff axes_call unit :=
  plot_bar_labels fx_get_max_bar_position fx_text_positions fx_sanitize t
    vertical levels (qc 3 10) (qc 1 10) minor_rotation major_rotation
    unique_minor_labels unique_major_labels unique_data_label [].

(** A table without rows. *)
Definition empty_table : fixture := Fixture (qc 0 1) (λ _, []).

(** A span of 3 with one bar at 0.1, which is also the centre of its
    group. *)
Definition one_bar_group : fixture :=
  Fixture (qc 3 1)
    (λ level,
       if decide (level = 1) then [(qc 1 10, "x"%string)]
       else if decide (level = 0) then [(qc 1 10, "A"%string)]
       else []).

(** A span of 5.000000000000001 with bars at 4 and 4.001 under one group
    whose label is put at 4. *)
Definition near_miss : fixture :=
  Fixture (qc 5000000000000001 1000000000000000)
    (λ level,
       if decide (level = 1)
       then [(qc 4 1, "x"%string); (qc 4001 1000, "y"%string)]
       else if decide (level = 0) then [(qc 4 1, "A"%string)]
       else []).



(** One iteration of the loop on a fixture, from a given loop state. *)
Definition run_level (t : fixture) (vertical : bool) (levels : Z)
    (minor_rotation major_rotation : rotation)
    (unique_minor_labels unique_major_labels : bool) (level : Z)
    (other_positions : gset Qc) : Eff axes_call (gset Qc) :=
  process_level fx_get_max_bar_position fx_text_positions fx_sanitize t
    vertical levels (qc 3 10) (qc 1 10) minor_rotation major_rotation
    unique_minor_labels unique_major_labels [] level other_positions.

Definition ninety : rotation := RotNum (Qc_of_Z 90).

(** A colour map with the leaf, the index tuple and the full category
    path (top-level index name first) as keys. *)
Definition colours : dict string :=
  [(KStr "x", "red"%string);
   (KTuple ["A"; "x"]%string, "green"%string);
   (KTuple ["model"; "A"; "x"]%string, "blue"%string)].

(** Twenty distinct labels of two characters. *)
Definition twenty_labels : list string :=
  ["a0"; "a1"; "a2"; "a3"; "a4"; "a5"; "a6"; "a7"; "a8"; "a9";
   "b0"; "b1"; "b2"; "b3"; "b4"; "b5"; "b6"; "b7"; "b8"; "b9"]%string.

(** Fixtures for [plot_boxplots]: a table given by its bars, and a
    resolver that always fails. *)
Definition fx_bar_positions (bars : list (Qc * Qc * Qc * list string))
    (_ _ : Qc) : list (Qc * Qc * Qc * list string) := bars.

Definition no_match (V : Type) (_ : dict V) (_ : list string) : result V :=
  Raise NoStyleMatch.

Definition two_bars : list (Qc * Qc * Qc * list string) :=
  [(qc 1 1, qc 7 10, qc 1 10, ["A"; "x"]%string);
   (qc 2 1, qc 9 10, qc 1 20, ["A"; "y"]%string)].

Definition leaf_alphas : dict Qc := [(KStr "x", qc 1 2); (KStr "y", qc 9 10)].
Definition leaf_colours : dict string :=
  [(KStr "x", "red"%string); (KStr "y", "navy"%string)].

(** ** Further observations on the call log *)

(** The bars' categories are laid out along the x axis when the bars are
    vertical, along the y axis otherwise; the values along the other one. *)
Definition categorical_axis (vertical : bool) : axis :=
  if vertical then AxisX else AxisY.
Definition value_axis (vertical : bool) : axis :=
  if vertical then AxisY else AxisX.

(** [c] sets ticks, tick labels or tick parameters of axis [a]. *)
Definition on_axis (a : axis) (c : axes_call) : Prop :=
  match c with
  | set_ticks a' _ _ => a' = a
  | set_ticklabels a' _ _ _ => a' = a
  | tick_params kw => tk_axis kw = a
  | _ => False
  end.

(** The labels handed to [set_xticklabels] / [set_yticklabels], with the
    [minor] flag of the call, in call order. *)
Definition tick_labels_of (log : Axes) : list (list string * bool) :=
  log ≫= λ c,
    match c with
    | set_ticklabels _ labels minor _ => [(labels, minor)]
    | _ => []
    end.

(** The label rotations given to the ticks of kind [w], in call order. *)
Definition rotation_of_call (w : which) (c : axes_call) : list rotation :=
  match c with
  | tick_params (TickKwargs _ w' _ (Some r) _ _ _) =>
      if decide (w' = w) then [r] else []
  | _ => []
  end.

Definition rotations_of (w : which) (log : Axes) : list rotation :=
  log ≫= rotation_of_call w.

(** What a rotation argument allows on the ticks: itself, or one of 0 and
    90 when it is "auto". *)
Definition rotation_allowed (given applied : rotation) : Prop :=
  if is_auto given
  then applied = RotNum (Qc_of_Z 0) ∨ applied = RotNum (Qc_of_Z 90)
  else applied = given.

(** Lines 134-137: the level is skipped. *)
Definition suppressed (levels : Z)
    (unique_minor_labels unique_major_labels : bool) (level : Z) : bool :=
  let minor := bool_decide (level = levels - 1) in
  (minor && unique_minor_labels) || (negb minor && unique_major_labels).

(** [two_groups] with one more pair at a level that no pass over two
    levels reaches. *)
Definition two_groups_above : fixture :=
  Fixture (qc 5 1)
    (λ level, if decide (level = 2) then [(qc 9 1, "top"%string)]
              else fx_pairs two_groups level).

(** One level whose only label is empty. *)
Definition blank_label : fixture :=
  Fixture (qc 1 1)
    (λ level, if decide (level = 0) then [(qc 1 2, ""%string)] else []).

(** ** Observations on [plot_boxplots] *)

(** The call that draws [bar] when the leaf of its index is a key of every
    style map given. *)
Definition leaf_styled (bar_width : Qc) (alphas : dict Qc)
    (colors : dict string) (hatch : option (dict string))
    (bar : Qc * Qc * Qc * list string) : option boxplot_call :=
  let '(x, y, std, index) := bar in
  leaf ← last index;
  alpha ← dict_get alphas (KStr leaf);
  color ← dict_get colors (KStr leaf);
  h ← match hatch with
      | None => Some None
      | Some d => v ← dict_get d (KStr leaf); Some (Some v)
      end;
  Some (BoxplotCall x y std bar_width alpha color h leaf).

(** [c] draws [bar]: same position, height, error bar and width, labelled
    with the leaf of the bar's index. *)
Definition draws (bar_width : Qc) (bar : Qc * Qc * Qc * list string)
    (c : boxplot_call) : Prop :=
  let '(x, y, std, index) := bar in
  bp_x c = x ∧ bp_y c = y ∧ bp_std c = std ∧ bp_bar_width c = bar_width
  ∧ last index = Some (bp_label c).

(** An alpha map that lacks the leaf "y". *)
Definition partial_alphas : dict Qc := [(KStr "x", qc 1 2)].

(** ** [setup.py]: [find_version]

    The content of a file is the list of its characters. [read] joins the
    path parts under the directory of the script and reads the file; it
    is a parameter. *)

Definition text : Type := list Ascii.ascii.

Inductive setup_error : Type :=
  | RuntimeError (message : string).

Definition single_quote : Ascii.ascii := Ascii.ascii_of_nat 39.
Definition double_quote : Ascii.ascii := Ascii.ascii_of_nat 34.
Definition newline : Ascii.ascii := Ascii.ascii_of_nat 10.

(** The character class of single and double quote, and its complement. *)
Definition is_quote (c : Ascii.ascii) : bool :=
  bool_decide (c = single_quote) || bool_decide (c = double_quote).

(** The literal part of the pattern of line 25. *)
Definition version_literal : text := String.list_ascii_of_string "__version__ = ".

(** Matching a literal at the head of the text: what follows it. *)
Fixpoint strip_prefix (literal s : text) : option text :=
  match literal, s with
  | [], _ => Some s
  | a :: literal', b :: s' =>
      if decide (a = b) then strip_prefix literal' s' else None
  | _ :: _, [] => None
  end.

(** The greedy run of characters that are not quotes, followed by a
    quote: the run stops at the first quote, and there is no match when
    the text ends before one. *)
Fixpoint until_quote (s : text) : option text :=
  match s with
  | [] => None
  | c :: s' => if is_quote c then Some [] else (c ::.) <$> until_quote s'
  end.

(** The pattern of line 25 after its anchor: the literal, a quote, group 1,
    a quote. The result is group 1. *)
Definition version_pattern_at (s : text) : option text :=
  rest ← strip_prefix version_literal s;
  match rest with
  | c :: rest' => if is_quote c then until_quote rest' else None
  | [] => None
  end.

(** [re.search(pattern, s, re.M)]: the leftmost match; with [re.M] the
    anchor matches at the beginning of the text and right after each
    newline. *)
Fixpoint re_search (line_start : bool) (s : text) : option text :=
  match (if line_start then version_pattern_at s else None) with
  | Some group => Some group
  | None =>
      match s with
      | [] => None
      | c :: s' => re_search (bool_decide (c = newline)) s'
      end
  end.

(** Lines 23-28. *)
Definition find_version (read : list string → text)
    (file_paths : list string) : setup_error + text :=
  let version_file := read file_paths in
  match re_search true version_file with
  | Some group => inr group
  | None => inl (RuntimeError "Unable to find version string.")
  end.

(** The suffixes of a text that begin a line. *)
Fixpoint line_starts (line_start : bool) (s : text) : list text :=
  (if line_start then [s] else [])
  ++ match s with
     | [] => []
     | c :: s' => line_starts (bool_decide (c = newline)) s'
     end.

(** [pre] is made of whole lines: it is empty or ends with a newline. *)
Definition whole_lines (pre : text) : Prop :=
  pre = [] ∨ ∃ pre0, pre = pre0 ++ [newline].

Definition quote_free (s : text) : Prop :=
  Forall (λ c, is_quote c = false) s.

(** A version file: a comment line, then the assignment, whose quotes
    differ, then another assignment. *)
Definition version_file_text : text :=
  String.list_ascii_of_string "# barplots" ++ [newline]
  ++ version_literal ++ [double_quote] ++ String.list_ascii_of_string "1.2.3"
  ++ [single_quote; newline]
  ++ version_literal ++ [double_quote] ++ String.list_ascii_of_string "9.9"
  ++ [double_quote; newline].

(** The assignment is indented. *)
Definition indented_version_text : text :=
  String.list_ascii_of_string "if True:" ++ [newline]
  ++ String.list_ascii_of_string "    " ++ version_literal ++ [single_quote]
  ++ String.list_ascii_of_string "1.2.3" ++ [single_quote; newline].

(** * Properties *)

#[local] Set Warnings "-clear-no-such-hyp".

(** ** The effect monad *)

Lemma adds_ret {C A} (P : C → Prop) (a : A) : adds P (mret a : Eff C A).
Proof. intros log. exists []. by rewrite app_nil_r. Qed.

Lemma adds_lift {C A} (P : C → Prop) (r : result A) : adds P (lift r : Eff C A).
Proof. intros log. exists []. by rewrite app_nil_r. Qed.

Lemma adds_call {C} (P : C → Prop) (c : C) : P c → adds P (call c).
Proof. intros H log. exists [c]. split; [done | by constructor]. Qed.

Lemma adds_bind {C A B} (P : C → Prop) (m : Eff C A) (f : A → Eff C B) :
  adds P m → (∀ a, adds P (f a)) → adds P (m ≫= f).
Proof.
  intros Hm Hf log. destruct (Hm log) as (new & Hlog & Hnew).
  unfold mbind, Eff_bind. destruct (m log) as [[a | e] log'] eqn:E; simpl in *.
  - destruct (Hf a log') as (new' & Hlog' & Hnew'). subst log'.
    exists (new ++ new'). rewrite Hlog', app_assoc. split; [done |].
    by apply Forall_app.
  - exists new. by subst.
Qed.

Lemma adds_impl {C A} (P Q : C → Prop) (m : Eff C A) :
  (∀ c, P c → Q c) → adds P m → adds Q m.
Proof.
  intros HPQ Hm log. destruct (Hm log) as (new & ? & ?).
  exists new. split; [done |]. by eapply Forall_impl.
Qed.

Lemma adds_calls_of {C A} (P : C → Prop) (m : Eff C A) :
  adds P m → Forall P (calls_of m).
Proof. intros Hm. destruct (Hm []) as (new & E & ?). unfold calls_of. by rewrite E. Qed.

Create HintDb adds discriminated.
#[local] Hint Resolve adds_ret adds_lift adds_call adds_bind : adds.

Ltac eff_unfold :=
  unfold mbind, Eff_bind, mret, Eff_ret, lift, call in *; simpl in *.

(** ** Float arithmetic *)

(** The arithmetic of the model on some floats, as the interpreter
    prints it: [round(0.000005, 5)] is [1e-05] (the float is above the
    tie), [round(0.078125, 5)] is [0.07812] (an exact tie, to even),
    [round(2.675, 2)] is [2.67], [0.1 + 0.2] is [0.30000000000000004], and
    [round(1.132805, 5) + 2.6 * 0.0002] is [1.1333300000000002]. *)
Example float_samples :
  py_round (qc 5 1000000) 5 = qc 1 100000
  ∧ py_round (qc 78125 1000000) 5 = qc 7812 100000
  ∧ py_round (qc 2675 1000) 2 = qc 267 100
  ∧ float_add (qc 1 10) (qc 2 10) = qc 30000000000000004 100000000000000000
  ∧ float_add (py_round (qc 1132805 1000000) 5) (jitter (qc 26 10))
    = qc 11333300000000002 10000000000000000.
Proof.
  repeat split;
    lazymatch goal with
    | |- ?P => apply (bool_decide_unpack P); vm_compute; exact I
    end.
Qed.

(** ** The window of processed levels *)

Lemma level_window_cases (levels : Z) :
  (levels ≤ 0 ∧ level_window levels = [])
  ∨ (levels = 1 ∧ level_window levels = [0])
  ∨ (2 ≤ levels ∧ level_window levels = [levels - 1; levels - 2]).
Proof.
  unfold level_window, py_range.
  destruct (decide (levels ≤ 0)) as [H0 | H0]; [left | right].
  - split; [done |]. rewrite seqZ_nil; [done | lia].
  - destruct (decide (levels = 1)) as [E | H1].
    { left. subst levels. split; reflexivity. }
    right. split; [lia |]. rewrite Z.max_l by lia.
    replace (levels - (levels - 2)) with 2 by lia.
    unfold seqZ, reverse. simpl. repeat (f_equal; try lia).
Qed.

(** ** Rounding and nudging *)

Lemma nudge_empty (width p : Qc) : nudge width ∅ p = p.
Proof. unfold nudge. by rewrite decide_False by set_solver. Qed.

Lemma final_positions_empty (width : Qc) (positions : list Qc) :
  final_positions width ∅ positions = rounded positions.
Proof.
  unfold final_positions. induction (rounded positions) as [| p l IH]; [done |].
  rewrite fmap_cons, nudge_empty. by f_equal.
Qed.

Lemma nudge_cases (width : Qc) (seen : gset Qc) (p : Qc) :
  (p ∈ seen ∧ nudge width seen p = float_add p (jitter width))
  ∨ ((p ∉ seen) ∧ nudge width seen p = p).
Proof. unfold nudge. destruct (decide (p ∈ seen)); [by left | by right]. Qed.

Lemma final_positions_offsets (width : Qc) (seen : gset Qc) (positions : list Qc) :
  Forall2 (λ final original,
             (original ∈ seen ∧ final = float_add original (jitter width))
             ∨ ((original ∉ seen) ∧ final = original))
    (final_positions width seen positions) (rounded positions).
Proof.
  unfold final_positions. induction (rounded positions) as [| p l IH];
    [constructor |].
  rewrite fmap_cons. constructor; [| done].
  destruct (nudge_cases width seen p) as [[? ->] | [? ->]]; [by left | by right].
Qed.

Lemma NoDup_fmap_inj_on {A B} (f : A → B) (l : list A) (x y : A) :
  NoDup (f <$> l) → x ∈ l → y ∈ l → f x = f y → x = y.
Proof.
  induction l as [| a l IH]; [by intros _ ?%elem_of_nil |].
  rewrite fmap_cons, NoDup_cons, !elem_of_cons.
  intros [Ha Hl] [-> | Hx] [-> | Hy] E; [done | | | by apply IH].
  - destruct Ha. rewrite E. by apply list_elem_of_fmap_2.
  - destruct Ha. rewrite <- E. by apply list_elem_of_fmap_2.
Qed.

(** Two levels, the upper one [B] nudged against the deeper one [A]: the
    ticks are pairwise distinct exactly when those of each level are, and
    every colliding position of [B] is moved to a value that is neither a
    position of [A] nor the final position of another position of [B]. *)
Lemma nudged_NoDup (width : Qc) (A B : list Qc) :
  NoDup (A ++ (nudge width (list_to_set A) <$> B))
  ↔ NoDup A ∧ NoDup B
    ∧ ∀ p, p ∈ B → p ∈ A →
        (float_add p (jitter width) ∉ A)
        ∧ ∀ q, q ∈ B → q ≠ p →
            nudge width (list_to_set A) q ≠ float_add p (jitter width).
Proof.
  rewrite NoDup_app. split.
  - intros (HA & Hdisj & HF). split; [done |].
    split; [by apply NoDup_fmap_1 in HF |].
    intros p HpB HpA.
    assert (nudge width (list_to_set A) p = float_add p (jitter width)) as Ep.
    { unfold nudge. rewrite decide_True; [done | by apply elem_of_list_to_set]. }
    split.
    + intros Hin. apply (Hdisj _ Hin). rewrite <- Ep.
      by apply list_elem_of_fmap_2.
    + intros q HqB Hne E. apply Hne. rewrite <- Ep in E.
      by apply (NoDup_fmap_inj_on _ _ _ _ HF).
  - intros (HA & HB & Hmoved). split; [done |]. split.
    + intros x HxA HxF. apply list_elem_of_fmap in HxF as (b & -> & Hb).
      destruct (nudge_cases width (list_to_set A) b) as [[Hin E] | [Hnin E]];
        rewrite E in HxA.
      * apply elem_of_list_to_set in Hin. by destruct (Hmoved b Hb Hin).
      * apply Hnin. by apply elem_of_list_to_set.
    + apply NoDup_fmap_2_strong; [| done]. intros b1 b2 H1 H2 E.
      destruct (decide (b1 = b2)) as [| Hne]; [done | exfalso].
      destruct (nudge_cases width (list_to_set A) b1) as [[Hin1 E1] | [Hnin1 E1]].
      { apply elem_of_list_to_set in Hin1.
        destruct (Hmoved b1 H1 Hin1) as [_ Hother].
        apply (Hother b2 H2); congruence. }
      destruct (nudge_cases width (list_to_set A) b2) as [[Hin2 E2] | [Hnin2 E2]].
      { apply elem_of_list_to_set in Hin2.
        destruct (Hmoved b2 H2 Hin2) as [_ Hother].
        apply (Hother b1 H1); congruence. }
      congruence.
Qed.

(** The same condition on the colliding positions, in a form that can be
    evaluated on a table. *)
Lemma moved_apart_Forall (width : Qc) (A B : list Qc) :
  Forall (λ p, p ∈ A →
            (float_add p (jitter width) ∉ A)
            ∧ Forall (λ q, q ≠ p →
                        nudge width (list_to_set A) q
                        ≠ float_add p (jitter width)) B) B →
  ∀ p, p ∈ B → p ∈ A →
    (float_add p (jitter width) ∉ A)
    ∧ ∀ q, q ∈ B → q ≠ p →
        nudge width (list_to_set A) q ≠ float_add p (jitter width).
Proof.
  rewrite Forall_forall. intros H p HpB HpA.
  destruct (H p HpB HpA) as [Hout Hothers]. split; [done |].
  by rewrite Forall_forall in Hothers.
Qed.

(** ** The rotation heuristics *)





Section heuristics_properties.
Variables (width : Qc) (labels : list string) (max_label_len : nat).

Abbreviation count := (Qc_of_nat (distinct_count labels)).
Abbreviation len := (Qc_of_nat max_label_len).




End heuristics_properties.

(** ** One iteration of the level loop *)

Lemma emitted_positions_app (log new : Axes) :
  emitted_positions (log ++ new) = emitted_positions log ++ emitted_positions new.
Proof. unfold emitted_positions. apply bind_app. Qed.

Lemma py_unzip_Ok {A B} (ps : list (A * B)) l1 l2 :
  py_unzip ps = Ok (l1, l2) → ps ≠ [] ∧ l1 = ps.*1 ∧ l2 = ps.*2.
Proof. destruct ps; [done |]. intros [= <- <-]. done. Qed.

(** Runs [process_level] symbolically: one goal per path through the loop
    body. *)
Ltac level_paths :=
  unfold process_level, emit_level; eff_unfold;
  repeat (case_match; simpl in *; simplify_eq; try done);
  intros; simplify_eq;
  repeat match goal with
         | H : py_unzip _ = Ok _ |- _ => apply py_unzip_Ok in H as (? & -> & ->)
         end;
  rewrite <- ?app_assoc; simpl in *; simplify_eq.

Section bar_labels_properties.
Context {DataFrame : Type}.
Variable get_max_bar_position : DataFrame → Qc → Qc → Qc.
Variable text_positions : DataFrame → Qc → Qc → Z → list (Qc * string).
Variable sanitize_ml_labels :
  list (string * list string) → list string → list string.
Variables (df : DataFrame) (vertical : bool) (levels : Z).
Variables (bar_width space_width : Qc).
Variables (minor_rotation major_rotation : rotation).
Variable custom_defaults : list (string * list string).

Abbreviation width := (get_max_bar_position df bar_width space_width).
Abbreviation pairs level := (text_positions df bar_width space_width level).
Abbreviation labels_of level := (sanitize_ml_labels custom_defaults (pairs level).*2).
Abbreviation next_seen seen level :=
  (seen_after get_max_bar_position text_positions df bar_width space_width
     seen level).
Abbreviation level_run uminor umajor :=
  (process_level get_max_bar_position text_positions sanitize_ml_labels df
     vertical levels bar_width space_width minor_rotation major_rotation
     uminor umajor custom_defaults).
Abbreviation levels_run uminor umajor :=
  (for_levels get_max_bar_position text_positions sanitize_ml_labels df
     vertical levels bar_width space_width minor_rotation major_rotation
     uminor umajor custom_defaults).
Abbreviation bar_labels uminor umajor udata :=
  (plot_bar_labels get_max_bar_position text_positions sanitize_ml_labels df
     vertical levels bar_width space_width minor_rotation major_rotation
     uminor umajor udata custom_defaults).


Lemma process_level_seen uminor umajor level seen log seen' :
  (level_run uminor umajor level seen log).1 = Ok seen' →
  seen' = next_seen seen level.
Proof. unfold seen_after. level_paths; done. Qed.

(** An iteration only appends to the log, and hands at most one list of
    positions to the axes: the final positions of its level. *)
Lemma process_level_ticks uminor umajor level seen log :
  ∃ new,
    (level_run uminor umajor level seen log).2 = log ++ new
    ∧ Forall (λ c, ∀ a ps m, c = set_ticks a ps m →
                ps = final_positions width seen (pairs level).*1) new
    ∧ (emitted_positions new = []
       ∨ emitted_positions new = final_positions width seen (pairs level).*1).
Proof.
  level_paths.
  all: try (exists []; rewrite app_nil_r; repeat split; by auto).
  all: eexists; split; [reflexivity |]; split;
    [ repeat constructor; congruence
    | right; unfold emitted_positions; simpl; by rewrite app_nil_r ].
Qed.

(** The whole call: the prelude, then the loop over the window. *)
Lemma plot_bar_labels_run uminor umajor udata :
  calls_of (bar_labels uminor umajor udata)
  = (levels_run uminor umajor (level_window levels) ∅
       (prelude vertical udata)).2
  ∧ outcome_of (bar_labels uminor umajor udata)
    = ((levels_run uminor umajor (level_window levels) ∅
          (prelude vertical udata)).1 ≫= λ _, Ok tt).
Proof.
  unfold plot_bar_labels, calls_of, outcome_of, prelude. eff_unfold.
  destruct udata, vertical; simpl;
    match goal with |- context [for_levels ?a ?b ?c ?d ?e ?f ?g ?h ?i ?j ?k ?l ?m ?n ?o ?q] =>
      destruct (for_levels a b c d e f g h i j k l m n o q) as [[? | ?] ?] end;
    done.
Qed.

Lemma for_levels_cons uminor umajor level window seen log :
  levels_run uminor umajor (level :: window) seen log
  = match level_run uminor umajor level seen log with
    | (Ok seen', log') => levels_run uminor umajor window seen' log'
    | (Raise e, log') => (Raise e, log')
    end.
Proof. reflexivity. Qed.

Lemma prelude_no_ticks udata :
  emitted_positions (prelude vertical udata) = []
  ∧ ∀ a ps m, set_ticks a ps m ∉ prelude vertical udata.
Proof.
  split; [by destruct udata, vertical |].
  intros a ps m. unfold prelude.
  destruct udata, vertical; simpl; rewrite ?elem_of_cons, elem_of_nil;
    naive_solver.
Qed.

(** A level that is not suppressed and completes hands exactly its final
    positions to the axes. *)
Lemma process_level_emits level seen log seen' log' :
  level_run false false level seen log = (Ok seen', log') →
  emitted_positions log'
  = emitted_positions log ++ final_positions width seen (pairs level).*1.
Proof.
  unfold process_level. destruct (bool_decide (level = levels - 1)).
  all: level_paths.
  all: rewrite emitted_positions_app; unfold emitted_positions at 2; simpl.
  all: by rewrite app_nil_r.
Qed.

(** C1 (amended). Every position handed to the axes is its rounded
    original, or the float sum of its rounded original and
    [width * 0.0002], the latter exactly when the rounded original is
    among the final positions of a strictly earlier iteration of the
    pass. The positions emitted in one pass are pairwise distinct
    provided that the rounded positions of each level are pairwise
    distinct and that every position of the upper level that is also a
    position of the deepest level is moved to a value that is neither a
    position of the deepest level nor the final position of another
    position of the upper level; when every level is emitted and the pass
    returns, these two conditions are also necessary. *)
Theorem jitter_invariant uminor umajor udata :
  let calls := calls_of (bar_labels uminor umajor udata) in
  let distinct_levels :=
    ∀ level, level ∈ level_window levels → NoDup (rounded (pairs level).*1) in
  let moved_apart :=
    2 ≤ levels →
    ∀ p, p ∈ rounded (pairs (levels - 2)).*1 →
         p ∈ rounded (pairs (levels - 1)).*1 →
      (float_add p (jitter width) ∉ rounded (pairs (levels - 1)).*1)
      ∧ ∀ q, q ∈ rounded (pairs (levels - 2)).*1 → q ≠ p →
          nudge width (list_to_set (rounded (pairs (levels - 1)).*1)) q
          ≠ float_add p (jitter width) in
  (∀ a ps m,
     set_ticks a ps m ∈ calls →
     ∃ level,
       level ∈ level_window levels
       ∧ let earlier :=
           earlier_positions get_max_bar_position text_positions df levels
             bar_width space_width level in
         Forall2 (λ final original,
                    (original ∈ earlier
                     ∧ final = float_add original (jitter width))
                    ∨ ((original ∉ earlier) ∧ final = original))
           ps (rounded (pairs level).*1))
  ∧ (distinct_levels → moved_apart → NoDup (emitted_positions calls))
  ∧ (uminor = false → umajor = false →
     outcome_of (bar_labels uminor umajor udata) = Ok tt →
     NoDup (emitted_positions calls) → distinct_levels ∧ moved_apart).
Proof.
  cbv zeta.
  destruct (plot_bar_labels_run uminor umajor udata) as [-> ->].
  destruct (prelude_no_ticks udata) as [Hpre Hnot].
  set (A := rounded (pairs (levels - 1)).*1).
  set (B := rounded (pairs (levels - 2)).*1).
  destruct (level_window_cases levels) as [[HL E] | [[HL E] | [HL E]]];
    rewrite E in *.
  - simpl. rewrite Hpre. split; [| split].
    + intros a ps m H. by destruct (Hnot a ps m).
    + intros _ _. constructor.
    + intros _ _ _ _. split; [by intros level ?%elem_of_nil | lia].
  - assert (levels - 1 = 0) as E0 by lia.
    rewrite for_levels_cons.
    destruct (process_level_ticks uminor umajor 0 ∅ (prelude vertical udata))
      as (new & Hlog & Hnew & Hticks).
    pose proof (process_level_emits 0 ∅ (prelude vertical udata)) as Hemits.
    rewrite final_positions_empty in Hticks, Hemits.
    destruct (level_run uminor umajor 0 ∅ (prelude vertical udata))
      as [[s1 | e1] log1] eqn:Erun; simpl in Hlog; subst log1; simpl.
    all: rewrite emitted_positions_app, Hpre; simpl.
    all: split; [| split].
    all: try (intros a ps m [H | H]%elem_of_app; [by destruct (Hnot a ps m) |];
              exists 0; split; [set_solver |];
              rewrite Forall_forall in Hnew; rewrite (Hnew _ H a ps m eq_refl);
              unfold earlier_positions; rewrite decide_True by lia;
              apply final_positions_offsets).
    all: try (intros Hdistinct _; destruct Hticks as [-> | ->]; [constructor |];
              apply Hdistinct; set_solver).
    + intros -> -> _ Hnodup. split; [| lia].
      intros level ->%list_elem_of_singleton.
      specialize (Hemits s1 _ Erun).
      rewrite emitted_positions_app, Hpre in Hemits. simpl in Hemits.
      by rewrite <- Hemits.
    + by intros _ _ ?.
  - assert (next_seen ∅ (levels - 1) = list_to_set A) as Hseen.
    { unfold seen_after. rewrite final_positions_empty. set_solver. }
    assert (earlier_positions get_max_bar_position text_positions df levels
              bar_width space_width (levels - 1) = ∅) as Hfirst.
    { unfold earlier_positions. by rewrite decide_True. }
    assert (earlier_positions get_max_bar_position text_positions df levels
              bar_width space_width (levels - 2)
            = next_seen ∅ (levels - 1)) as Hsecond.
    { unfold earlier_positions. rewrite decide_False by lia. done. }
    rewrite for_levels_cons.
    destruct (process_level_ticks uminor umajor (levels - 1) ∅
                (prelude vertical udata)) as (new1 & Hlog1 & Hnew1 & Ht1).
    pose proof (process_level_seen uminor umajor (levels - 1) ∅
                  (prelude vertical udata)) as Hs1.
    pose proof (process_level_emits (levels - 1) ∅ (prelude vertical udata))
      as Hemits1.
    rewrite final_positions_empty in Ht1, Hemits1. fold A in Ht1, Hemits1.
    rewrite Forall_forall in Hnew1.
    destruct (level_run uminor umajor (levels - 1) ∅ (prelude vertical udata))
      as [[s1 | e1] log1] eqn:Erun1; simpl in Hlog1; subst log1; cbv beta iota.
    + rewrite (Hs1 s1 eq_refl) in *. rewrite for_levels_cons. clear Hs1.
      destruct (process_level_ticks uminor umajor (levels - 2)
                  (next_seen ∅ (levels - 1))
                  (prelude vertical udata ++ new1))
        as (new2 & Hlog2 & Hnew2 & Ht2).
      rewrite Forall_forall in Hnew2.
      unfold final_positions in Ht2. rewrite Hseen in Ht2. fold B in Ht2.
      destruct (level_run uminor umajor (levels - 2)
                  (next_seen ∅ (levels - 1)) (prelude vertical udata ++ new1))
        as [[s2 | e2] log2] eqn:Erun2; simpl in Hlog2; subst log2; simpl.
      all: rewrite !emitted_positions_app, Hpre; simpl.
      all: split; [| split].
      all: try (intros a ps m [[H | H]%elem_of_app | H]%elem_of_app;
                [ by destruct (Hnot a ps m)
                | exists (levels - 1); split; [set_solver |];
                  rewrite (Hnew1 _ H a ps m eq_refl), Hfirst;
                  apply final_positions_offsets
                | exists (levels - 2); split; [set_solver |];
                  rewrite (Hnew2 _ H a ps m eq_refl), Hsecond;
                  apply final_positions_offsets ]).
      all: try (intros Hdistinct Hmoved;
                assert (NoDup (A ++ (nudge width (list_to_set A) <$> B)))
                  as (HA & Hdisj & HB)%NoDup_app
                  by (apply nudged_NoDup; split; [apply Hdistinct; set_solver |];
                      split; [apply Hdistinct; set_solver | by apply Hmoved]);
                destruct Ht1 as [-> | ->], Ht2 as [-> | ->];
                rewrite ?app_nil_r; simpl; try done; try constructor;
                by apply NoDup_app).
      * intros -> -> _ Hnodup.
        specialize (Hemits1 _ _ Erun1).
        pose proof (process_level_emits _ _ _ _ _ Erun2) as Hemits2.
        unfold final_positions in Hemits2. rewrite Hseen in Hemits2.
        fold B in Hemits2.
        rewrite emitted_positions_app, Hpre in Hemits1. simpl in Hemits1.
        rewrite !emitted_positions_app, Hpre, Hemits1 in Hemits2.
        simpl in Hemits2. apply app_inv_head in Hemits2.
        rewrite Hemits1, Hemits2 in Hnodup.
        apply nudged_NoDup in Hnodup as (HA & HB & Hmoved).
        split; [| done].
        intros level [-> | ->%list_elem_of_singleton]%elem_of_cons; done.
      * by intros _ _ ?.
    + simpl. rewrite emitted_positions_app, Hpre. simpl. split; [| split].
      * intros a ps m [H | H]%elem_of_app; [by destruct (Hnot a ps m) |].
        exists (levels - 1). split; [set_solver |].
        rewrite (Hnew1 _ H a ps m eq_refl), Hfirst.
        apply final_positions_offsets.
      * intros Hdistinct _. destruct Ht1 as [-> | ->]; [constructor |].
        apply Hdistinct. set_solver.
      * by intros _ _ ?.
Qed.

(** C3 (amended). For every minor level that is emitted, the paired major
    tick's length depends on the orientation: on the vertical orientation
    it is 6 times the maximum label length when the adopted minor rotation
    exceeds 80 and 20 otherwise; on the horizontal orientation it is 20
    when the rotation exceeds 80 and 6 times the maximum label length
    otherwise. *)
Theorem major_tick_length_by_orientation umajor level seen log seen' log' :
  level = levels - 1 →
  level_run false umajor level seen log = (Ok seen', log') →
  ∃ q m,
    py_max (String.length <$> labels_of level) = Ok m
    ∧ adapted_minor_rotation vertical width true (labels_of level) m
        minor_rotation = Ok (RotNum q)
    ∧ last log'
      = Some (paired_major_tick vertical
                (if vertical
                 then (if bool_decide (Qc_of_Z 80 < q)%Qc
                       then (6 * m)%nat else 20%nat)
                 else (if bool_decide (Qc_of_Z 80 < q)%Qc
                       then 20%nat else (6 * m)%nat))).
Proof.
  intros ->. unfold paired_major_tick, process_level.
  rewrite (bool_decide_eq_true_2 (levels - 1 = levels - 1)) by done.
  level_paths.
  all: match goal with
       | H : major_tick_length _ _ ?r = Ok _ |- _ =>
           destruct r as [? | q]; [done |]; exists q; eexists;
           split; [done |]; split; [done |];
           unfold major_tick_length in H; simpl in H; simplify_eq
       end.
  all: by rewrite last_app.
Qed.

(** The rotation decided for an emitted level is the one applied to its
    ticks. *)
Lemma process_level_minor_rotation umajor seen log seen' log' :
  level_run false umajor (levels - 1) seen log = (Ok seen', log') →
  ∃ r m,
    py_max (String.length <$> labels_of (levels - 1)) = Ok m
    ∧ adapted_minor_rotation vertical width true (labels_of (levels - 1)) m
        minor_rotation = Ok r
    ∧ tick_params (TickKwargs (if vertical then AxisX else AxisY) Minor
                     (Some 9%nat) (Some r) None None None) ∈ log'.
Proof.
  unfold process_level.
  rewrite (bool_decide_eq_true_2 (levels - 1 = levels - 1)) by done.
  level_paths.
  all: do 2 eexists; split; [done |]; split; [done |]; set_solver.
Qed.

Lemma process_level_major_rotation uminor level seen log seen' log' :
  level ≠ levels - 1 →
  level_run uminor false level seen log = (Ok seen', log') →
  ∃ r m,
    py_max (String.length <$> labels_of level) = Ok m
    ∧ adapted_major_rotation vertical width false (labels_of level) m
        major_rotation = Ok r
    ∧ tick_params (TickKwargs (if vertical then AxisX else AxisY) Major
                     (if vertical then Some 10%nat else None) (Some r)
                     None None None) ∈ log'.
Proof.
  intros Hne. unfold process_level.
  rewrite (bool_decide_eq_false_2 (level = levels - 1)) by done.
  level_paths.
  all: do 2 eexists; split; [done |]; split; [done |]; set_solver.
Qed.

(** ** Suppression of a level *)

Lemma process_level_adds uminor umajor level seen :
  adds (allowed levels uminor umajor level) (level_run uminor umajor level seen).
Proof.
  intros log. level_paths.
  all: try (exists []; rewrite app_nil_r; split; [done | constructor]).
  all: eexists; split; [reflexivity |].
  all: repeat first [apply Forall_nil_2 | apply Forall_cons_2].
  all: intros w Hw; destruct w; simplify_eq /=.
  all: repeat match goal with H : bool_decide _ = _ |- _ => rewrite H end.
  all: done.
Qed.

Lemma for_levels_adds (P : axes_call → Prop) uminor umajor window :
  (∀ level seen, level ∈ window → adds P (level_run uminor umajor level seen)) →
  ∀ seen, adds P (levels_run uminor umajor window seen).
Proof.
  induction window as [| level window IH]; intros Hlevel seen; simpl.
  - auto with adds.
  - apply adds_bind; [apply Hlevel; set_solver |].
    intros seen'. apply IH. intros ???. apply Hlevel. set_solver.
Qed.

Lemma plot_bar_labels_adds (P : axes_call → Prop) uminor umajor udata :
  Forall P (prelude vertical udata) →
  (∀ level seen, level ∈ level_window levels →
     adds P (level_run uminor umajor level seen)) →
  Forall P (calls_of (bar_labels uminor umajor udata)).
Proof.
  intros Hpre Hlevel.
  destruct (plot_bar_labels_run uminor umajor udata) as [-> _].
  destruct (for_levels_adds P uminor umajor _ Hlevel ∅ (prelude vertical udata))
    as (new & -> & Hnew).
  by apply Forall_app.
Qed.

Lemma prelude_no_level_call udata w :
  Forall (λ c, level_call w c = false) (prelude vertical udata).
Proof. unfold prelude. destruct udata, vertical; repeat constructor. Qed.

(** C5. With [unique_minor_labels] set, no call of the pass sets
    positions, labels or label rotation of the minor ticks; with
    [unique_major_labels] set, none sets those of the major ticks. This
    holds for every outcome of the pass, and whatever the other flags. *)
Theorem suppressed_level_not_emitted uminor umajor udata :
  Forall (λ c, level_call Minor c = false)
    (calls_of (bar_labels true umajor udata))
  ∧ Forall (λ c, level_call Major c = false)
      (calls_of (bar_labels uminor true udata)).
Proof.
  split.
  - apply plot_bar_labels_adds; [apply prelude_no_level_call |].
    intros level seen _.
    eapply adds_impl; [| apply process_level_adds].
    intros c Hc. destruct (level_call Minor c) eqn:E; [| done].
    by destruct (Hc Minor E).
  - apply plot_bar_labels_adds; [apply prelude_no_level_call |].
    intros level seen _.
    eapply adds_impl; [| apply process_level_adds].
    intros c Hc. destruct (level_call Major c) eqn:E; [| done].
    by destruct (Hc Major E).
Qed.

(** C9. With [unique_data_label] set, the first call of the pass clears
    the y-axis label, on either orientation. *)
Theorem data_label_cleared uminor umajor :
  head (calls_of (bar_labels uminor umajor true)) = Some (set_ylabel "").
Proof.
  destruct (plot_bar_labels_run uminor umajor true) as [-> _].
  destruct (for_levels_adds (λ _, True) uminor umajor (level_window levels))
    with (seen := (∅ : gset Qc)) (log := prelude vertical true)
    as (new & -> & _); [| done].
  intros level seen _. eapply adds_impl; [| apply process_level_adds]. done.
Qed.

(** ** Failure on an empty level *)


(** ** Suppressed levels and the seen-position set *)

Lemma process_level_suppressed_minor umajor seen log :
  (level_run true umajor (levels - 1) seen log).2 = log.
Proof.
  unfold process_level.
  rewrite (bool_decide_eq_true_2 (levels - 1 = levels - 1)) by done.
  level_paths.
Qed.

Lemma process_level_emitted_major uminor level seen log seen' log' :
  level ≠ levels - 1 →
  level_run uminor false level seen log = (Ok seen', log') →
  emitted_positions log'
  = emitted_positions log ++ final_positions width seen (pairs level).*1.
Proof.
  intros Hne. unfold process_level.
  rewrite (bool_decide_eq_false_2 (level = levels - 1)) by done.
  level_paths.
  all: rewrite emitted_positions_app; unfold emitted_positions at 2; simpl.
  all: by rewrite app_nil_r.
Qed.

(** C8. A level that completes hands its final positions to the next
    iteration whether or not its ticks are suppressed; so in a pass over
    two levels that suppresses the minor ticks and emits the major ones,
    the only positions emitted are those of the major level, nudged
    against the rounded positions of the suppressed minor level. *)
Theorem suppressed_positions_still_seen udata :
  2 ≤ levels →
  outcome_of (bar_labels true false udata) = Ok tt →
  emitted_positions (calls_of (bar_labels true false udata))
  = (nudge width (list_to_set (rounded (pairs (levels - 1)).*1))
       <$> rounded (pairs (levels - 2)).*1)
  ∧ ∀ uminor umajor level seen log seen',
      (level_run uminor umajor level seen log).1 = Ok seen' →
      seen' = seen ∪ list_to_set (final_positions width seen (pairs level).*1).
Proof.
  intros HL Hok. split; [| intros *; apply process_level_seen].
  destruct (plot_bar_labels_run true false udata) as [Hcalls Hout].
  rewrite Hout in Hok. rewrite Hcalls. clear Hcalls Hout.
  destruct (level_window_cases levels) as [[? _] | [[? _] | [_ E]]]; [lia.. |].
  rewrite E in *. rewrite for_levels_cons in *.
  pose proof (process_level_suppressed_minor false ∅ (prelude vertical udata))
    as Hlog1.
  pose proof (process_level_seen true false (levels - 1) ∅
                (prelude vertical udata)) as Hs1.
  destruct (level_run true false (levels - 1) ∅ (prelude vertical udata))
    as [[s1 | e1] log1]; [| done].
  simpl in Hlog1. subst log1. rewrite (Hs1 s1 eq_refl) in *. clear Hs1.
  rewrite for_levels_cons in *.
  pose proof (process_level_emitted_major true (levels - 2)
                (next_seen ∅ (levels - 1)) (prelude vertical udata)) as Hlog2.
  destruct (level_run true false (levels - 2) (next_seen ∅ (levels - 1))
              (prelude vertical udata)) as [[s2 | e2] log2]; [| done].
  simpl. rewrite (Hlog2 s2 log2) by (done || lia).
  destruct (prelude_no_ticks udata) as [-> _]. simpl.
  unfold final_positions, seen_after. rewrite final_positions_empty.
  by rewrite (left_id_L ∅ (∪)).
Qed.
End bar_labels_properties.

(** Decides a closed proposition by evaluation. *)
Ltac by_evaluation :=
  lazymatch goal with
  | |- ?P => apply (bool_decide_unpack P); vm_compute; exact I
  end.

Lemma level_window_2 (level : Z) :
  level ∈ level_window 2 → level = 1 ∨ level = 0.
Proof. change (level_window 2) with [1; 0]. set_solver. Qed.

(** On [two_groups] both conditions of the invariant hold (the major tick
    at 4 is moved to the float [4 + 5 * 0.0002], which is no other tick),
    and the three minor and two major ticks are pairwise distinct. *)
Lemma jitter_invariant_witness :
  NoDup (emitted_positions
           (calls_of (run_fixture two_groups true 2 auto auto false false true))).
Proof.
  refine (proj1 (proj2 (jitter_invariant fx_get_max_bar_position
                          fx_text_positions fx_sanitize two_groups true 2
                          (qc 3 10) (qc 1 10) auto auto [] false false true))
            _ _).
  - intros level [-> | ->]%level_window_2; by_evaluation.
  - intros _. apply moved_apart_Forall. by_evaluation.
Defined.

(** C1, counterexample. Two minor positions a millionth apart round to the
    same value; both are emitted, un-nudged, in the one iteration of the
    pass. And on [one_bar_group] the major tick at 0.1 is nudged to
    0.10060000000000001: neither the exact difference from its rounded
    original nor the float difference is [3 * 0.0002], be that the float
    product or the exact 0.0006. *)
Lemma jitter_invariant_counterexample :
  ¬ NoDup (emitted_positions
             (calls_of (run_fixture close_bars true 1 auto auto false false true)))
  ∧ emitted_positions
      (calls_of (run_fixture one_bar_group true 2 auto auto false false true))
    = [qc 1 10; qc 10060000000000001 100000000000000000]
  ∧ ((qc 10060000000000001 100000000000000000 - qc 1 10)%Qc
     ∉ [jitter (qc 3 1); Q2Qc (6 # 10000)])
  ∧ (float_add (qc 10060000000000001 100000000000000000) (- qc 1 10)%Qc
     ∉ [jitter (qc 3 1); Q2Qc (6 # 10000)]).
Proof. repeat split; by_evaluation. Qed.

(** The float sum can land on a tick that the exact sum misses: on
    [near_miss] the exact [4 + 5.000000000000001 * 0.0002] is not 4.001,
    but the major tick is moved onto the minor tick at 4.001. *)
Example rounded_sum_can_collide :
  emitted_positions
    (calls_of (run_fixture near_miss true 2 auto auto false false true))
  = [qc 4 1; qc 4001 1000; qc 4001 1000]
  ∧ (qc 4 1 + fx_width near_miss * Q2Qc (2 # 10000))%Qc ≠ Q2Qc (4001 # 1000)
  ∧ (qc 4 1 + fx_width near_miss * Q2Qc (2 # 10000))%Qc ≠ qc 4001 1000.
Proof. repeat split; by_evaluation. Qed.

(** Nudging can also create a collision: on [wide_table] the major tick at
    1 is moved onto the minor tick at 3/2. *)
Example nudged_position_can_collide :
  emitted_positions
    (calls_of (run_fixture wide_table true 2 auto auto false false true))
  = [qc 1 1; qc 3 2; qc 3 2].
Proof. by_evaluation. Qed.

(** ** The heuristics on concrete tables *)

(** A whole pass over [two_groups], vertical bars, nothing suppressed: the
    minor labels are rotated (2 distinct labels against [5 * 5 / 1]), the
    major tick is lengthened to [6 * 1], the major labels stay horizontal
    (2 distinct labels against [5 * 20 / 1]), and the major tick at 4 is
    nudged by [5 * 0.0002]. *)
Example two_groups_pass :
  run_fixture two_groups true 2 auto auto false false true []
  = (Ok tt,
     [set_ylabel ""; locator_params AxisY 5; set_major_formatter AxisY;
      set_ticks AxisX [qc 1 1; qc 2 1; qc 4 1] true;
      set_ticklabels AxisX ["x"; "y"; "x"]%string true "center";
      tick_params (TickKwargs AxisX Minor (Some 9%nat) (Some ninety) None None
                     None);
      paired_major_tick true 6;
      set_ticks AxisX [qc 3 2; qc 4001 1000] false;
      set_ticklabels AxisX ["A"; "B"]%string false "center";
      tick_params (TickKwargs AxisX Major (Some 10%nat)
                     (Some (RotNum (Qc_of_Z 0))) None None None)]).
Proof. by_evaluation. Qed.

(** The boundary examples of the specification (section 8), on which the
    code and the specification's wording agree: width 10, 20 distinct
    labels of length 2, and width 10, 2 distinct labels of length 1, both
    vertical and minor, are rotated by 90. *)
Example rotation_boundary :
  adapted_minor_rotation true (qc 10 1) true twenty_labels 2 auto = Ok ninety
  ∧ spec_minor_rotation true (qc 10 1) (distinct_count twenty_labels) 2
    = ninety
  ∧ adapted_minor_rotation true (qc 10 1) true ["x"; "y"]%string 1 auto
    = Ok ninety
  ∧ spec_minor_rotation true (qc 10 1) 2 1 = ninety.
Proof. repeat split; by_evaluation. Qed.



(** C3, counterexample. On the horizontal orientation with the minor
    labels rotated by 90, the paired major tick gets the fixed length 20,
    not 6 times the maximum label length (12 here). *)
Lemma major_tick_length_counterexample :
  major_tick_lengths
    (calls_of (run_fixture three_labels false 1 ninety auto false false true))
  = [20%nat]
  ∧ spec_major_tick_length true 2 = 12%nat.
Proof. split; by_evaluation. Qed.

Lemma major_tick_length_by_orientation_witness :
  ∃ q m,
    py_max (String.length <$> fx_sanitize [] (fx_pairs three_labels 0).*2)
    = Ok m
    ∧ adapted_minor_rotation false (fx_width three_labels) true
        (fx_sanitize [] (fx_pairs three_labels 0).*2) m ninety
      = Ok (RotNum q)
    ∧ last (run_level three_labels false 1 ninety auto false false 0 ∅ []).2
      = Some (paired_major_tick false
                (if bool_decide (Qc_of_Z 80 < q)%Qc
                 then 20%nat else (6 * m)%nat)).
Proof.
  apply (major_tick_length_by_orientation fx_get_max_bar_position
           fx_text_positions fx_sanitize three_labels false 1 (qc 3 10)
           (qc 1 10) ninety auto [] false 0 ∅ []
           (seen_after fx_get_max_bar_position fx_text_positions three_labels
              (qc 3 10) (qc 1 10) ∅ 0)).
  - reflexivity.
  - by_evaluation.
Defined.



(** On [two_groups] with the minor ticks suppressed, the major tick at 4
    is still moved off the (suppressed) minor tick at 4. *)
Lemma suppressed_positions_still_seen_witness :
  emitted_positions
    (calls_of (run_fixture two_groups true 2 auto auto true false true))
  = [qc 3 2; qc 4001 1000].
Proof.
  etransitivity.
  - refine (proj1 (suppressed_positions_still_seen fx_get_max_bar_position
                     fx_text_positions fx_sanitize two_groups true 2 (qc 3 10)
                     (qc 1 10) auto auto [] true _ _)).
    + lia.
    + by_evaluation.
  - by_evaluation.
Defined.

(** ** Style resolution *)

Lemma dict_get_Some_elem {V} (d : dict V) (k : key) (v : V) :
  dict_get d k = Some v → k ∈ d.*1.
Proof.
  induction d as [| [k' v'] d IH]; [done |]. simpl.
  destruct (decide (k' = k)) as [-> | _]; [left | right; auto].
Qed.

Lemma py_last_Ok (index : list string) (leaf : string) :
  py_last index = Ok leaf ↔ last index = Some leaf.
Proof. unfold py_last. destruct (last index); naive_solver. Qed.

Lemma contiguous_in_unfold (part whole : list string) :
  contiguous_in part whole
  = bool_decide (part `prefix_of` whole)
    || match whole with
       | [] => false
       | _ :: whole' => contiguous_in part whole'
       end.
Proof. by destruct whole. Qed.

Lemma contiguous_in_refl (t : list string) : contiguous_in t t = true.
Proof. by rewrite contiguous_in_unfold, bool_decide_eq_true_2. Qed.

Lemma contiguous_in_length (part whole : list string) :
  contiguous_in part whole = true →
  (length part ≤ length whole)%nat
  ∧ (length part = length whole → part = whole).
Proof.
  induction whole as [| a whole IH]; rewrite contiguous_in_unfold.
  - rewrite orb_false_r, bool_decide_eq_true. intros ->%prefix_nil_inv. done.
  - intros [Hpre%bool_decide_eq_true | Hrest]%orb_true_iff.
    + split; [by apply prefix_length in Hpre |].
      intros E. apply prefix_length_eq; [done | simpl in *; lia].
    + destruct (IH Hrest) as [Hle _]. simpl. split; lia.
Qed.

Lemma longest_key_None (ks : list key) : longest_key ks = None → ks = [].
Proof. destruct ks; simpl; [done |]. repeat case_match; done. Qed.

Lemma longest_key_max (ks : list key) (k : key) :
  longest_key ks = Some k →
  k ∈ ks
  ∧ ∀ k', k' ∈ ks → (length (key_parts k') ≤ length (key_parts k))%nat.
Proof.
  revert k. induction ks as [| k0 ks IH]; intros k; simpl; [done |].
  destruct (longest_key ks) as [k1 |] eqn:E.
  - destruct (IH k1 eq_refl) as [Hin Hmax].
    case_decide; intros [= <-].
    + split; [by right |]. intros k' [-> | Hk']%elem_of_cons; [lia | auto].
    + split; [by left |]. intros k' [-> | Hk']%elem_of_cons; [lia |].
      specialize (Hmax k' Hk'). lia.
  - apply longest_key_None in E as ->. intros [= <-].
    split; [by left |]. by intros k' ->%list_elem_of_singleton.
Qed.

(** The resolver modelled from the specification returns the value of the
    full category path whenever that path is a key. *)
Lemma get_best_match_full_tuple {V} (items : dict V) (category_tuple : list string)
    (v : V) :
  (2 ≤ length category_tuple)%nat →
  dict_get items (KTuple category_tuple) = Some v →
  get_best_match V items category_tuple = Ok v.
Proof.
  intros Hlen Hget. unfold get_best_match.
  set (ks := filter _ _).
  assert (KTuple category_tuple ∈ ks) as Hfull.
  { apply list_elem_of_filter. split.
    - apply contiguous_in_refl.
    - by eapply dict_get_Some_elem. }
  destruct (longest_key ks) as [k |] eqn:E.
  - destruct (longest_key_max ks k E) as [Hk Hmax].
    apply list_elem_of_filter in Hk as [Hmatch _].
    specialize (Hmax _ Hfull). simpl in Hmax.
    destruct (contiguous_in_length _ _ Hmatch) as [Hle Heq].
    assert (key_parts k = category_tuple) as Hparts by (apply Heq; lia).
    destruct k as [s | t]; simpl in Hparts; subst.
    + simpl in Hlen. lia.
    + by rewrite Hget.
  - apply longest_key_None in E. rewrite E in Hfull. by apply elem_of_nil in Hfull.
Qed.

(** C6 (amended). When the style map has the full category path
    [(top_index, *index)] as a key, resolution returns the value of the
    leaf-most category if that is a key too, and the value of the full
    path otherwise, whatever other shorter or partial keys are present. *)
Theorem full_tuple_key_resolution {V} (d : dict V) (top_index : string)
    (index : list string) (leaf : string) (v : V) :
  last index = Some leaf →
  dict_get d (KTuple (top_index :: index)) = Some v →
  resolve_style get_best_match d top_index index
  = Ok (match dict_get d (KStr leaf) with
        | Some v' => v'
        | None => v
        end).
Proof.
  intros Hleaf Hfull. unfold resolve_style.
  rewrite (proj2 (py_last_Ok index leaf) Hleaf). simpl.
  destruct (dict_get d (KStr leaf)); [done |].
  apply get_best_match_full_tuple; [| done].
  destruct index; [done | simpl; lia].
Qed.

Lemma full_tuple_key_resolution_witness :
  resolve_style get_best_match
    [(KTuple ["A"; "x"]%string, "green"%string);
     (KTuple ["model"; "A"; "x"]%string, "blue"%string)]
    "model" ["A"; "x"]%string
  = Ok "blue"%string.
Proof.
  apply (full_tuple_key_resolution
           [(KTuple ["A"; "x"]%string, "green"%string);
            (KTuple ["model"; "A"; "x"]%string, "blue"%string)]
           "model" ["A"; "x"]%string "x" "blue"); reflexivity.
Defined.

(** C6, counterexample. [colours] has the full path as a key, with value
    "blue" (and the index tuple, with value "green"), yet resolution
    returns the value "red" of the leaf key: the leaf is looked up first
    (lines 54-56), whatever [get_best_match] does. *)
Lemma full_tuple_key_counterexample :
  dict_get colours (KTuple ["model"; "A"; "x"]%string) = Some "blue"%string
  ∧ dict_get colours (KTuple ["A"; "x"]%string) = Some "green"%string
  ∧ ∀ best_match : ∀ V : Type, dict V → list string → result V,
      resolve_style best_match colours "model" ["A"; "x"]%string
      = Ok "red"%string.
Proof. repeat split; intros; reflexivity. Qed.

(** ** [plot_boxplots] without hatches *)

Section boxplots_properties.
Context {DataFrame : Type}.
Variable bar_positions :
  DataFrame → Qc → Qc → list (Qc * Qc * Qc * list string).
Variable best_match : ∀ V : Type, dict V → list string → result V.
Variables (df : DataFrame) (bar_width space_width : Qc).
Variables (alphas : dict Qc) (colors : dict string) (top_index : string).

Abbreviation bars_run hatch :=
  (for_bars best_match bar_width alphas colors hatch top_index).
Abbreviation boxplots hatch :=
  (plot_boxplots bar_positions best_match df bar_width space_width alphas
     colors hatch top_index).

Lemma resolve_style_Ok_last {V} (d : dict V) (index : list string) (v : V) :
  resolve_style best_match d top_index index = Ok v →
  ∃ leaf, py_last index = Ok leaf.
Proof. unfold resolve_style. destruct (py_last index); [eauto | done]. Qed.

Lemma plot_one_no_hatch bar :
  adds (λ c, bp_hatch c = None)
    (plot_one best_match bar_width alphas colors None top_index bar).
Proof.
  destruct bar as [[[x y] std] index]. intros log. unfold plot_one. eff_unfold.
  repeat case_match; simplify_eq.
  all: try (exists []; by rewrite app_nil_r).
  eexists. split; [done |]. by repeat constructor.
Qed.

Lemma for_bars_no_hatch bars :
  adds (λ c, bp_hatch c = None) (bars_run None bars).
Proof.
  induction bars as [| bar bars IH]; simpl; [auto with adds |].
  apply adds_bind; [apply plot_one_no_hatch | done].
Qed.

Lemma plot_one_raises bar log e :
  (plot_one best_match bar_width alphas colors None top_index bar log).1
  = Raise e →
  resolve_style best_match alphas top_index bar.2 = Raise e
  ∨ resolve_style best_match colors top_index bar.2 = Raise e.
Proof.
  destruct bar as [[[x y] std] index]. unfold plot_one. eff_unfold.
  destruct (resolve_style best_match alphas top_index index) as [alpha | e1]
    eqn:Ea; [| intros [= ->]; by left].
  destruct (resolve_style best_match colors top_index index) as [color | e2];
    [| intros [= ->]; by right].
  destruct (resolve_style_Ok_last _ _ _ Ea) as [leaf ->]. done.
Qed.

(** Both the alpha and the colour of a bar resolve. *)
Abbreviation styled bar :=
  (∃ alpha color,
     resolve_style best_match alphas top_index bar.2 = Ok alpha
     ∧ resolve_style best_match colors top_index bar.2 = Ok color).

(** The call draws the bar with its resolved alpha and colour, and without
    a hatch. *)
Abbreviation drawn_plain bar c :=
  (draws bar_width bar c
   ∧ resolve_style best_match alphas top_index bar.2 = Ok (bp_alpha c)
   ∧ resolve_style best_match colors top_index bar.2 = Ok (bp_color c)
   ∧ bp_hatch c = None).

(** Without a hatch map, a bar whose alpha and colour resolve is drawn,
    and any other bar raises before the primitive is called. *)
Lemma plot_one_no_hatch_run bar log :
  (styled bar
   ∧ ∃ c, plot_one best_match bar_width alphas colors None top_index bar log
          = (Ok tt, log ++ [c])
          ∧ drawn_plain bar c)
  ∨ ((¬ styled bar)
     ∧ ∃ e, plot_one best_match bar_width alphas colors None top_index bar log
            = (Raise e, log)).
Proof.
  destruct bar as [[[x y] std] index]. unfold plot_one. eff_unfold.
  destruct (resolve_style best_match alphas top_index index) as [alpha | e1]
    eqn:Ea; [| right; split; [by intros (? & ? & ? & ?) | by eexists]].
  destruct (resolve_style best_match colors top_index index) as [color | e2]
    eqn:Ec; [| right; split; [by intros (? & ? & ? & ?) | by eexists]].
  destruct (resolve_style_Ok_last _ _ _ Ea) as [leaf Hleaf]. rewrite Hleaf.
  left. split; [by eexists _, _ |]. eexists. split; [done |].
  apply py_last_Ok in Hleaf. done.
Qed.

Lemma for_bars_app hatch bars1 bars2 log :
  bars_run hatch (bars1 ++ bars2) log
  = match bars_run hatch bars1 log with
    | (Ok _, log') => bars_run hatch bars2 log'
    | (Raise e, log') => (Raise e, log')
    end.
Proof.
  revert log. induction bars1 as [| bar bars1 IH]; intros log; [done |].
  simpl. unfold mbind, Eff_bind.
  destruct (plot_one _ _ _ _ _ _ _ _) as [[[] | e] log1]; [apply IH | done].
Qed.

(** Without a hatch map, bars that are all styled are all drawn, in
    order. *)
Lemma for_bars_styled bars log :
  Forall (λ bar, styled bar) bars →
  ∃ new,
    bars_run None bars log = (Ok tt, log ++ new)
    ∧ Forall2 (λ bar c, drawn_plain bar c) bars new.
Proof.
  revert log. induction bars as [| bar bars IH]; intros log Hall.
  - exists []. split; [| constructor]. simpl. unfold mret, Eff_ret.
    by rewrite app_nil_r.
  - apply Forall_cons in Hall as [Hbar Hall].
    destruct (plot_one_no_hatch_run bar log)
      as [(_ & c & Hrun & Hc) | [Hnot _]]; [| done].
    destruct (IH (log ++ [c]) Hall) as (new & Hrest & Hnew).
    exists (c :: new). split; [| by constructor].
    simpl. unfold mbind at 1, Eff_bind. rewrite Hrun, Hrest.
    by rewrite <- app_assoc.
Qed.

Lemma for_bars_returns bars log log' :
  bars_run None bars log = (Ok tt, log') → Forall (λ bar, styled bar) bars.
Proof.
  revert log. induction bars as [| bar bars IH]; intros log; [by constructor |].
  simpl. unfold mbind at 1, Eff_bind.
  destruct (plot_one_no_hatch_run bar log)
    as [(Hbar & c & -> & _) | (_ & e & ->)]; [| done].
  intros Hrest. constructor; [done | by eapply IH].
Qed.

(** C10. With [hatch] equal to [None], the hatch argument is [None] for
    every index without any lookup (whatever [get_best_match] would
    answer, and even for an index without a leaf). The pass returns
    exactly when the alpha and the colour of every bar resolve, and then
    the drawing primitive is called once per bar. In every pass, a bar
    whose alpha and colour resolve, as do those of the bars before it, is
    drawn by the call of its rank, with its resolved alpha and colour and
    with [hatch=None]; no call has another hatch; and if the pass raises,
    the error was raised by the resolution of an alpha or of a colour. *)
Theorem no_hatch_no_lookup :
  let bars := bar_positions df bar_width space_width in
  (∀ index, resolve_hatch best_match None top_index index = Ok None)
  ∧ Forall (λ c, bp_hatch c = None) (calls_of (boxplots None))
  ∧ (outcome_of (boxplots None) = Ok tt ↔ ∀ bar, bar ∈ bars → styled bar)
  ∧ (outcome_of (boxplots None) = Ok tt →
     length (calls_of (boxplots None)) = length bars)
  ∧ (∀ i bar,
       bars !! i = Some bar →
       (∀ j bar', (j ≤ i)%nat → bars !! j = Some bar' → styled bar') →
       ∃ c, calls_of (boxplots None) !! i = Some c ∧ drawn_plain bar c)
  ∧ ∀ e, outcome_of (boxplots None) = Raise e →
         ∃ bar,
           bar ∈ bars
           ∧ (resolve_style best_match alphas top_index bar.2 = Raise e
              ∨ resolve_style best_match colors top_index bar.2 = Raise e).
Proof.
  cbv zeta. split; [done |].
  split; [apply adds_calls_of, for_bars_no_hatch |].
  unfold plot_boxplots, outcome_of, calls_of.
  set (bars := bar_positions df bar_width space_width).
  split; [| split; [| split]].
  - split.
    + destruct (bars_run None bars []) as [[[] | e] log'] eqn:Erun; [| done].
      intros _. apply Forall_forall. by eapply for_bars_returns.
    + intros Hall%Forall_forall.
      by destruct (for_bars_styled bars [] Hall) as (new & -> & _).
  - destruct (bars_run None bars []) as [[[] | e] log'] eqn:Erun; [| done].
    intros _. apply for_bars_returns in Erun as Hall.
    destruct (for_bars_styled bars [] Hall) as (new & Hrun & Hnew).
    rewrite Erun in Hrun. simplify_eq /=. symmetry. by eapply Forall2_length.
  - intros i bar Hbar Hbefore.
    assert (Forall (λ bar, styled bar) (take (S i) bars)) as Hall.
    { apply Forall_forall. intros bar' [j Hj]%list_elem_of_lookup_1.
      apply lookup_take_Some in Hj as [Hj Hlt].
      apply (Hbefore j); [lia | done]. }
    destruct (for_bars_styled _ [] Hall) as (new & Hrun & Hnew).
    replace (bars_run None bars [])
      with (bars_run None (take (S i) bars ++ drop (S i) bars) [])
      by (by rewrite take_drop).
    rewrite for_bars_app, Hrun. simpl.
    destruct (for_bars_no_hatch (drop (S i) bars) new) as (rest & -> & _).
    assert (take (S i) bars !! i = Some bar) as Hi.
    { rewrite lookup_take_lt by lia. done. }
    destruct (Forall2_lookup_l _ _ _ _ _ Hnew Hi) as (c & Hc & Hdrawn).
    exists c. split; [| done]. by apply lookup_app_l_Some.
  - generalize (@nil boxplot_call) as log.
    induction bars as [| bar bars' IH]; intros log e; [done |].
    simpl. unfold mbind at 1, Eff_bind.
    pose proof (plot_one_raises bar log) as Hraise.
    destruct (plot_one best_match bar_width alphas colors None top_index bar log)
      as [[[] | e1] log1]; simpl in *.
    + intros He. destruct (IH log1 e He) as (b & ? & ?).
      exists b. split; [by right | done].
    + intros [= <-]. exists bar. split; [by left | auto].
Qed.
End boxplots_properties.

(** With a resolver that never finds anything, leaf keys for alphas and
    colours, and no hatch map, the second of [two_bars] is drawn by the
    second call, without a hatch. *)
Lemma no_hatch_no_lookup_witness :
  ∃ c,
    calls_of (plot_boxplots fx_bar_positions no_match two_bars (qc 3 10)
                (qc 1 10) leaf_alphas leaf_colours None "model") !! 1%nat
    = Some c
    ∧ draws (qc 3 10) (qc 2 1, qc 9 10, qc 1 20, ["A"; "y"]%string) c
    ∧ resolve_style no_match leaf_alphas "model" ["A"; "y"]%string
      = Ok (bp_alpha c)
    ∧ resolve_style no_match leaf_colours "model" ["A"; "y"]%string
      = Ok (bp_color c)
    ∧ bp_hatch c = None.
Proof.
  refine (proj1 (proj2 (proj2 (proj2 (proj2
            (no_hatch_no_lookup fx_bar_positions no_match two_bars (qc 3 10)
               (qc 1 10) leaf_alphas leaf_colours "model")))))
            1%nat _ eq_refl _).
  intros [| [| j]] bar' Hj [= <-]; by eexists _, _.
Defined.

(** With a resolver that never finds anything, leaf keys for alphas and
    colours, and no hatch map, both bars are still drawn; with a hatch map
    that lacks the leaf the same resolver makes the pass fail. *)
Example no_hatch_run :
  plot_boxplots fx_bar_positions no_match two_bars (qc 3 10) (qc 1 10)
    leaf_alphas leaf_colours None "model" []
  = (Ok tt,
     [BoxplotCall (qc 1 1) (qc 7 10) (qc 1 10) (qc 3 10) (qc 1 2) "red" None "x";
      BoxplotCall (qc 2 1) (qc 9 10) (qc 1 20) (qc 3 10) (qc 9 10) "navy" None
        "y"])
  ∧ plot_boxplots fx_bar_positions no_match two_bars (qc 3 10) (qc 1 10)
      leaf_alphas leaf_colours (Some []) "model" []
    = (Raise NoStyleMatch, []).
Proof. split; reflexivity. Qed.

(** * Further properties of [plot_bar_labels] *)

Section bar_labels_composition.
Context {DataFrame : Type}.
Variable get_max_bar_position : DataFrame → Qc → Qc → Qc.
Variable text_positions : DataFrame → Qc → Qc → Z → list (Qc * string).
Variable sanitize_ml_labels :
  list (string * list string) → list string → list string.
Variables (df : DataFrame) (vertical : bool) (levels : Z).
Variables (bar_width space_width : Qc).
Variables (minor_rotation major_rotation : rotation).
Variable custom_defaults : list (string * list string).

Abbreviation width := (get_max_bar_position df bar_width space_width).
Abbreviation pairs level := (text_positions df bar_width space_width level).
Abbreviation labels_of level := (sanitize_ml_labels custom_defaults (pairs level).*2).
Abbreviation level_run uminor umajor :=
  (process_level get_max_bar_position text_positions sanitize_ml_labels df
     vertical levels bar_width space_width minor_rotation major_rotation
     uminor umajor custom_defaults).
Abbreviation levels_run uminor umajor :=
  (for_levels get_max_bar_position text_positions sanitize_ml_labels df
     vertical levels bar_width space_width minor_rotation major_rotation
     uminor umajor custom_defaults).
Abbreviation bar_labels uminor umajor udata :=
  (plot_bar_labels get_max_bar_position text_positions sanitize_ml_labels df
     vertical levels bar_width space_width minor_rotation major_rotation
     uminor umajor udata custom_defaults).

(** An iteration neither reads nor rewrites what is already in the log. *)
Lemma process_level_frame uminor umajor level seen log :
  level_run uminor umajor level seen log
  = ((level_run uminor umajor level seen []).1,
     log ++ (level_run uminor umajor level seen []).2).
Proof. level_paths; by rewrite ?app_nil_r. Qed.

Lemma for_levels_frame uminor umajor window seen log :
  levels_run uminor umajor window seen log
  = ((levels_run uminor umajor window seen []).1,
     log ++ (levels_run uminor umajor window seen []).2).
Proof.
  revert seen log. induction window as [| level window IH]; intros seen log.
  - simpl. unfold mret, Eff_ret. simpl. by rewrite app_nil_r.
  - rewrite !(for_levels_cons get_max_bar_position text_positions
                sanitize_ml_labels df vertical levels bar_width space_width
                minor_rotation major_rotation custom_defaults).
    rewrite (process_level_frame uminor umajor level seen log).
    destruct (level_run uminor umajor level seen []) as [[seen' | e] new];
      simpl; [| done].
    rewrite (IH seen' (log ++ new)), (IH seen' new). simpl.
    by rewrite app_assoc.
Qed.

(** The calls of a pass: the prelude, then those of the loop. *)
Lemma plot_bar_labels_calls uminor umajor udata :
  calls_of (bar_labels uminor umajor udata)
  = prelude vertical udata
    ++ (levels_run uminor umajor (level_window levels) ∅ []).2
  ∧ outcome_of (bar_labels uminor umajor udata)
    = ((levels_run uminor umajor (level_window levels) ∅ []).1 ≫= λ _, Ok tt).
Proof.
  destruct (plot_bar_labels_run get_max_bar_position text_positions
              sanitize_ml_labels df vertical levels bar_width space_width
              minor_rotation major_rotation custom_defaults uminor umajor udata)
    as [-> ->].
  by rewrite for_levels_frame.
Qed.

Lemma prelude_axes udata :
  prelude vertical udata
  = (if udata then [set_ylabel ""] else [])
    ++ [locator_params (value_axis vertical) 5;
        set_major_formatter (value_axis vertical)].
Proof. by destruct vertical. Qed.

(** X1. Whatever the outcome, a pass first formats the value axis (five
    locator bins and the digit formatter on the y axis for vertical bars,
    on the x axis otherwise), after clearing the y label if asked to; every
    later call sets ticks, tick labels or tick parameters of the other,
    categorical axis. *)
Theorem value_axis_then_categorical_ticks uminor umajor udata :
  ∃ ticks,
    calls_of (bar_labels uminor umajor udata)
    = (if udata then [set_ylabel ""] else [])
      ++ [locator_params (value_axis vertical) 5;
          set_major_formatter (value_axis vertical)]
      ++ ticks
    ∧ Forall (on_axis (categorical_axis vertical)) ticks.
Proof.
  destruct (plot_bar_labels_calls uminor umajor udata) as [-> _].
  rewrite prelude_axes, <- app_assoc. eexists. split; [done |].
  destruct (for_levels_adds get_max_bar_position text_positions
              sanitize_ml_labels df vertical levels bar_width space_width
              minor_rotation major_rotation custom_defaults
              (on_axis (categorical_axis vertical)) uminor umajor
              (level_window levels)) with (seen := (∅ : gset Qc))
    (log := @nil axes_call) as (new & -> & Hnew); [| done].
  intros level seen _ log. level_paths.
  all: try (exists []; rewrite app_nil_r; split; [done | constructor]).
  all: eexists; split; [reflexivity |].
  all: repeat first [apply Forall_nil_2 | apply Forall_cons_2]; done.
Qed.

(** X2. [unique_data_label] changes nothing but the first call: with the
    flag set the pass makes the same calls, preceded by the clearing of
    the y label, and it has the same outcome. *)
Theorem data_label_flag_only_clears_ylabel uminor umajor :
  calls_of (bar_labels uminor umajor true)
  = set_ylabel "" :: calls_of (bar_labels uminor umajor false)
  ∧ outcome_of (bar_labels uminor umajor true)
    = outcome_of (bar_labels uminor umajor false).
Proof.
  destruct (plot_bar_labels_calls uminor umajor true) as [-> ->].
  destruct (plot_bar_labels_calls uminor umajor false) as [-> ->].
  done.
Qed.

Lemma process_level_both_suppressed level seen log :
  (level_run true true level seen log).2 = log.
Proof.
  level_paths.
  all: match goal with
       | H : bool_decide ?P && true = false,
         H' : negb (bool_decide ?P) && true = false |- _ =>
           by destruct (bool_decide P)
       end.
Qed.

(** X3. With both [unique_minor_labels] and [unique_major_labels] set, a
    pass touches nothing but the value axis (and the y label), whether it
    returns or raises. *)
Theorem both_flags_leave_ticks_alone udata :
  calls_of (bar_labels true true udata)
  = (if udata then [set_ylabel ""] else [])
    ++ [locator_params (value_axis vertical) 5;
        set_major_formatter (value_axis vertical)].
Proof.
  destruct (plot_bar_labels_calls true true udata) as [-> _].
  rewrite prelude_axes.
  assert (∀ window seen, (levels_run true true window seen []).2 = [])
    as ->; [| by rewrite app_nil_r].
  induction window as [| level window IH]; intros seen; [done |].
  rewrite (for_levels_cons get_max_bar_position text_positions
             sanitize_ml_labels df vertical levels bar_width space_width
             minor_rotation major_rotation custom_defaults).
  pose proof (process_level_both_suppressed level seen []) as Hlog.
  destruct (level_run true true level seen []) as [[seen' | e] new];
    simpl in Hlog; subst new; [apply IH | done].
Qed.

(** ** What a pass reads *)

Lemma for_levels_ext
    (text_positions' : DataFrame → Qc → Qc → Z → list (Qc * string))
    uminor umajor window :
  Forall (λ level, pairs level = text_positions' df bar_width space_width level)
    window →
  ∀ seen log,
    levels_run uminor umajor window seen log
    = for_levels get_max_bar_position text_positions' sanitize_ml_labels df
        vertical levels bar_width space_width minor_rotation major_rotation
        uminor umajor custom_defaults window seen log.
Proof.
  induction 1 as [| level window Hlevel _ IH]; intros seen log; [done |].
  simpl. unfold mbind, Eff_bind.
  assert (level_run uminor umajor level seen log
          = process_level get_max_bar_position text_positions'
              sanitize_ml_labels df vertical levels bar_width space_width
              minor_rotation major_rotation uminor umajor custom_defaults
              level seen log) as <-.
  { unfold process_level. by rewrite Hlevel. }
  destruct (level_run uminor umajor level seen log) as [[seen' | e] log'];
    [apply IH | done].
Qed.

(** X4. A pass reads the table only at its last two levels: two position
    calculators that agree on the levels [levels - 2] and [levels - 1]
    (as far as these are not negative) give the same calls and the same
    outcome, whatever they answer for the levels above. *)
Theorem only_last_two_levels_read
    (text_positions' : DataFrame → Qc → Qc → Z → list (Qc * string))
    uminor umajor udata log :
  (∀ level, 0 ≤ level → levels - 2 ≤ level < levels →
            pairs level = text_positions' df bar_width space_width level) →
  bar_labels uminor umajor udata log
  = plot_bar_labels get_max_bar_position text_positions' sanitize_ml_labels
      df vertical levels bar_width space_width minor_rotation major_rotation
      uminor umajor udata custom_defaults log.
Proof.
  intros Hagree.
  assert (Forall (λ level,
                    pairs level
                    = text_positions' df bar_width space_width level)
            (level_window levels)) as Hwindow.
  { destruct (level_window_cases levels) as [[_ ->] | [[-> ->] | [? ->]]];
      repeat constructor; apply Hagree; lia. }
  pose proof (for_levels_ext text_positions' uminor umajor _ Hwindow) as Hext.
  clear Hagree Hwindow.
  unfold plot_bar_labels, mbind, Eff_bind, call, mret, Eff_ret.
  destruct udata, vertical; cbn -[for_levels level_window]; by rewrite Hext.
Qed.

(** ** How a pass can fail *)

Lemma py_unzip_raises {A B} (ps : list (A * B)) e :
  py_unzip ps = Raise e → e = ValueError ∧ ps = [].
Proof. destruct ps; [by intros [= <-] | done]. Qed.

Lemma py_max_raises (l : list nat) e : py_max l = Raise e → e = ValueError.
Proof. destruct l; [by intros [= <-] | done]. Qed.

Lemma and3_raises a b c e :
  and3 a b c = Raise e → a = true ∧ b = Raise e.
Proof. unfold and3. destruct a, b; naive_solver. Qed.

Lemma count_raises w labels m k e :
  (count_le w labels m k = Raise e ∨ count_ge w labels m k = Raise e) →
  e = ZeroDivisionError ∧ m = 0%nat.
Proof.
  unfold count_le, count_ge, py_div.
  destruct (decide (m = 0%nat)); naive_solver.
Qed.

Lemma adapted_minor_rotation_raises v w minor labels m r e :
  adapted_minor_rotation v w minor labels m r = Raise e →
  e = ZeroDivisionError ∧ is_auto r = true ∧ minor = true ∧ m = 0%nat.
Proof.
  unfold adapted_minor_rotation. destruct (is_auto r); [| done].
  destruct (and3 minor (count_le w labels m 5) v) as [[] | e1] eqn:E1;
    simpl; [done | |].
  - destruct (and3 minor (count_le w labels m 20) (negb v))
      as [[] | e2] eqn:E2; simpl; [done.. |].
    intros [= <-]. apply and3_raises in E2 as [-> E2].
    destruct (count_raises w labels m 20 e2); auto.
  - intros [= <-]. apply and3_raises in E1 as [-> E1].
    destruct (count_raises w labels m 5 e1); auto.
Qed.

Lemma adapted_major_rotation_raises v w minor labels m r e :
  adapted_major_rotation v w minor labels m r = Raise e →
  e = ZeroDivisionError ∧ is_auto r = true ∧ minor = false ∧ m = 0%nat.
Proof.
  unfold adapted_major_rotation. destruct (is_auto r); [| done].
  destruct (and3 (negb minor) (count_le w labels m 5) (negb v))
    as [[] | e1] eqn:E1; simpl; [done | |].
  - destruct (and3 (negb minor) (count_ge w labels m 20) v)
      as [[] | e2] eqn:E2; simpl; [done.. |].
    intros [= <-]. apply and3_raises in E2 as [Hminor E2].
    destruct (count_raises w labels m 20 e2); [auto |].
    by destruct minor.
  - intros [= <-]. apply and3_raises in E1 as [Hminor E1].
    destruct (count_raises w labels m 5 e1); [auto |].
    by destruct minor.
Qed.

Lemma adapted_minor_rotation_fixed v w minor labels m r a :
  is_auto r = false →
  adapted_minor_rotation v w minor labels m r = Ok a → a = r.
Proof. unfold adapted_minor_rotation. intros ->. by intros [= <-]. Qed.

Lemma adapted_major_rotation_fixed v w minor labels m r a :
  is_auto r = false →
  adapted_major_rotation v w minor labels m r = Ok a → a = r.
Proof. unfold adapted_major_rotation. intros ->. by intros [= <-]. Qed.

Lemma adapted_minor_rotation_auto_values v w minor labels m r a :
  is_auto r = true →
  adapted_minor_rotation v w minor labels m r = Ok a →
  a = RotNum (Qc_of_Z 0) ∨ a = RotNum (Qc_of_Z 90).
Proof.
  unfold adapted_minor_rotation. intros ->.
  destruct (and3 minor _ v) as [[] | ?]; simpl; [naive_solver | | done].
  destruct (and3 minor _ (negb v)) as [[] | ?]; simpl; naive_solver.
Qed.

Lemma adapted_major_rotation_auto_values v w minor labels m r a :
  is_auto r = true →
  adapted_major_rotation v w minor labels m r = Ok a →
  a = RotNum (Qc_of_Z 0) ∨ a = RotNum (Qc_of_Z 90).
Proof.
  unfold adapted_major_rotation. intros ->.
  destruct (and3 (negb minor) _ (negb v)) as [[] | ?]; simpl;
    [naive_solver | | done].
  destruct (and3 (negb minor) _ v) as [[] | ?]; simpl; naive_solver.
Qed.

Lemma major_tick_length_raises v m a e :
  major_tick_length v m a = Raise e →
  e = TypeError ∧ ∃ s, a = RotStr s.
Proof.
  unfold major_tick_length. destruct a as [s | q]; simpl.
  - intros [= <-]. eauto.
  - by destruct v.
Qed.

(** The failures of one iteration. *)
Lemma process_level_raises uminor umajor level seen log e :
  (level_run uminor umajor level seen log).1 = Raise e →
  (e = ValueError ∧ (pairs level = [] ∨ labels_of level = []))
  ∨ (e = ZeroDivisionError
     ∧ is_auto (if bool_decide (level = levels - 1)
                then minor_rotation else major_rotation) = true
     ∧ py_max (String.length <$> labels_of level) = Ok 0%nat)
  ∨ (e = TypeError ∧ level = levels - 1 ∧ uminor = false
     ∧ is_auto minor_rotation = false ∧ ∃ s, minor_rotation = RotStr s).
Proof.
  unfold process_level, mbind, Eff_bind, lift.
  destruct (py_unzip (pairs level)) as [[ps ls] | e0] eqn:Eunzip; simpl.
  2: { intros [= <-]. left. apply py_unzip_raises in Eunzip as [-> ->]. auto. }
  apply py_unzip_Ok in Eunzip as (_ & -> & ->).
  destruct (py_max (String.length <$> labels_of level)) as [m | e0] eqn:Emax.
  2: { intros [= <-]. left. split; [by eapply py_max_raises |].
       right. destruct (labels_of level); [done | discriminate]. }
  destruct (adapted_minor_rotation vertical width _ (labels_of level) m
              minor_rotation) as [a | e1] eqn:Eminor.
  2: { intros [= <-]. right; left.
       apply adapted_minor_rotation_raises in Eminor as (-> & ? & -> & ->).
       done. }
  destruct (adapted_major_rotation vertical width _ (labels_of level) m
              major_rotation) as [b | e2] eqn:Emajor.
  2: { intros [= <-]. right; left.
       apply adapted_major_rotation_raises in Emajor as (-> & ? & -> & ->).
       done. }
  destruct (bool_decide (level = levels - 1)) eqn:Hminor; simpl;
    destruct uminor, umajor; simpl; try done.
  all: unfold emit_level; eff_unfold.
  all: destruct vertical; simpl; try done.
  all: destruct (major_tick_length _ m a) as [n | e3] eqn:Elen; simpl;
    [done |].
  all: intros [= <-]; right; right.
  all: apply major_tick_length_raises in Elen as [-> [s ->]].
  all: apply bool_decide_eq_true in Hminor.
  all: destruct (is_auto minor_rotation) eqn:Hauto;
    [ by destruct (adapted_minor_rotation_auto_values _ _ _ _ _ _ _ Hauto
                     Eminor)
    | apply (adapted_minor_rotation_fixed _ _ _ _ _ _ _ Hauto) in Eminor;
      eauto 10 ].
Qed.

Lemma for_levels_raises uminor umajor window seen log e :
  (levels_run uminor umajor window seen log).1 = Raise e →
  ∃ level seen' log',
    level ∈ window ∧ (level_run uminor umajor level seen' log').1 = Raise e.
Proof.
  revert seen log. induction window as [| level window IH]; intros seen log;
    [done |].
  simpl. unfold mbind at 1, Eff_bind.
  destruct (level_run uminor umajor level seen log) as [[seen' | e'] log']
    eqn:E; simpl.
  - intros H. destruct (IH _ _ H) as (l & s & g & ? & ?).
    exists l, s, g. split; [by right | done].
  - intros [= <-]. exists level, seen, log. rewrite E. split; [by left | done].
Qed.

(** X5. Of its own (the helpers and the axes methods are taken to
    return), a pass raises nothing but [ValueError] (a level without
    labels), [ZeroDivisionError] (only with an "auto" rotation, on labels
    that are all empty) and [TypeError] (only when [minor_rotation] is a
    string other than "auto" and the minor ticks are not suppressed). *)
Theorem pass_failures uminor umajor udata e :
  outcome_of (bar_labels uminor umajor udata) = Raise e →
  (e = ValueError
   ∧ ∃ level, level ∈ level_window levels
              ∧ (pairs level = [] ∨ labels_of level = []))
  ∨ (e = ZeroDivisionError
     ∧ (is_auto minor_rotation = true ∨ is_auto major_rotation = true)
     ∧ ∃ level, level ∈ level_window levels
                ∧ py_max (String.length <$> labels_of level) = Ok 0%nat)
  ∨ (e = TypeError ∧ uminor = false
     ∧ ∃ s, minor_rotation = RotStr s ∧ s ≠ "auto"%string).
Proof.
  destruct (plot_bar_labels_calls uminor umajor udata) as [_ ->].
  destruct (levels_run uminor umajor (level_window levels) ∅ [])
    as [[seen | e'] log] eqn:E; [done |].
  simpl. intros [= ->].
  destruct (for_levels_raises uminor umajor (level_window levels) ∅ [] e)
    as (level & seen' & log' & Hin & Hraise); [by rewrite E |].
  apply process_level_raises in Hraise
    as [[-> H] | [(-> & Hauto & Hmax) | (-> & -> & -> & Hauto & s & ->)]].
  - left. eauto.
  - right; left. split; [done |]. split; [| eauto].
    by destruct (bool_decide (level = levels - 1)); [left | right].
  - right; right. repeat split; [].
    exists s. split; [done |]. simpl in Hauto.
    by apply bool_decide_eq_false in Hauto.
Qed.

(** ** When a pass succeeds *)

Lemma foldr_max_ge (x : nat) (l : list nat) (y : nat) :
  y ∈ x :: l → (y ≤ foldr Nat.max x l)%nat.
Proof.
  induction l as [| z l IH]; simpl.
  - intros ->%list_elem_of_singleton. done.
  - intros [-> | [-> | H]%elem_of_cons]%elem_of_cons.
    + etrans; [apply IH; by left | apply Nat.le_max_r].
    + apply Nat.le_max_l.
    + etrans; [apply IH; by right | apply Nat.le_max_r].
Qed.

Lemma py_max_positive (labels : list string) (s : string) :
  s ∈ labels → s ≠ ""%string →
  ∃ m, py_max (String.length <$> labels) = Ok m ∧ m ≠ 0%nat.
Proof.
  intros Hin Hs. destruct labels as [| s0 labels]; [by apply elem_of_nil in Hin |].
  rewrite fmap_cons. unfold py_max. eexists. split; [done |].
  assert (String.length s ≤ foldr Nat.max (String.length s0)
                              (String.length <$> labels))%nat as Hle.
  { apply foldr_max_ge. rewrite <- fmap_cons. by apply list_elem_of_fmap_2. }
  assert (String.length s ≠ 0)%nat by (by destruct s).
  lia.
Qed.

Lemma count_Ok w labels m k :
  m ≠ 0%nat →
  (∃ b, count_le w labels m k = Ok b) ∧ (∃ b, count_ge w labels m k = Ok b).
Proof.
  intros Hm. unfold count_le, count_ge, py_div.
  rewrite decide_False by done. simpl. eauto.
Qed.

Lemma adapted_minor_rotation_Ok v w minor labels m r :
  m ≠ 0%nat → (∀ s, r = RotStr s → s = "auto"%string) →
  ∃ q, adapted_minor_rotation v w minor labels m r = Ok (RotNum q).
Proof.
  intros Hm Hr. unfold adapted_minor_rotation, and3.
  destruct (count_Ok w labels m 5 Hm) as [[b5 ->] _].
  destruct (count_Ok w labels m 20 Hm) as [[b20 ->] _].
  destruct r as [s | q]; simpl; [| eauto].
  rewrite (Hr s eq_refl). simpl.
  destruct minor, b5, b20, v; simpl; eauto.
Qed.

Lemma adapted_major_rotation_Ok v w minor labels m r :
  m ≠ 0%nat → ∃ a, adapted_major_rotation v w minor labels m r = Ok a.
Proof.
  intros Hm. unfold adapted_major_rotation, and3.
  destruct (count_Ok w labels m 5 Hm) as [[b5 ->] _].
  destruct (count_Ok w labels m 20 Hm) as [_ [b20 ->]].
  destruct (is_auto r); simpl; [| eauto].
  destruct minor, b5, b20, v; simpl; eauto.
Qed.

Lemma py_unzip_nonempty {A B} (ps : list (A * B)) :
  ps ≠ [] → py_unzip ps = Ok (ps.*1, ps.*2).
Proof. by destruct ps. Qed.

Lemma process_level_succeeds uminor umajor level seen log :
  (∃ s, s ∈ labels_of level ∧ s ≠ ""%string) →
  pairs level ≠ [] →
  (∀ s, minor_rotation = RotStr s → s = "auto"%string) →
  ∃ seen', (level_run uminor umajor level seen log).1 = Ok seen'.
Proof.
  intros (s & Hin & Hs) Hpairs Hrot.
  destruct (py_max_positive _ s Hin Hs) as (m & Hmax & Hm).
  unfold process_level, mbind, Eff_bind, lift.
  rewrite (py_unzip_nonempty _ Hpairs), Hmax.
  destruct (adapted_minor_rotation_Ok vertical width
              (bool_decide (level = levels - 1)) (labels_of level) m
              minor_rotation Hm Hrot) as [q ->].
  destruct (adapted_major_rotation_Ok vertical width
              (bool_decide (level = levels - 1)) (labels_of level) m
              major_rotation Hm) as [a ->].
  unfold emit_level, major_tick_length, mbind, Eff_bind, lift, call.
  destruct (bool_decide (level = levels - 1)), uminor, umajor, vertical;
    simpl; eauto.
Qed.

(** X6. A pass returns normally (the helpers and the axes methods being
    taken to return) whenever each of its (at most two) levels has at
    least one position, at least one sanitized label that is not empty,
    and [minor_rotation] is a number or "auto". *)
Theorem pass_succeeds uminor umajor udata :
  (∀ level, level ∈ level_window levels →
            pairs level ≠ [] ∧ ∃ s, s ∈ labels_of level ∧ s ≠ ""%string) →
  (∀ s, minor_rotation = RotStr s → s = "auto"%string) →
  outcome_of (bar_labels uminor umajor udata) = Ok tt.
Proof.
  intros Hlevels Hrot.
  destruct (plot_bar_labels_calls uminor umajor udata) as [_ ->].
  assert (∀ window seen log,
            (∀ level, level ∈ window → level ∈ level_window levels) →
            ∃ seen', (levels_run uminor umajor window seen log).1 = Ok seen')
    as Hloop.
  { induction window as [| level window IH]; intros seen log Hsub.
    - by exists seen.
    - rewrite (for_levels_cons get_max_bar_position text_positions
                 sanitize_ml_labels df vertical levels bar_width space_width
                 minor_rotation major_rotation custom_defaults).
      destruct (Hlevels level) as [Hpairs Hlabel]; [apply Hsub; by left |].
      destruct (process_level_succeeds uminor umajor level seen log
                  Hlabel Hpairs Hrot) as [seen' Hok].
      destruct (level_run uminor umajor level seen log) as [[s1 | e1] log1];
        [| done].
      apply IH. intros l Hl. apply Hsub. by right. }
  destruct (Hloop (level_window levels) ∅ []) as [seen' ->]; done.
Qed.

(** ** Labels that are all empty *)

Lemma py_max_all_empty (labels : list string) :
  labels ≠ [] → Forall (λ s, s = ""%string) labels →
  py_max (String.length <$> labels) = Ok 0%nat.
Proof.
  intros Hne Hall. destruct labels as [| s labels]; [done |].
  apply Forall_cons in Hall as [-> Hall]. rewrite fmap_cons. unfold py_max.
  f_equal. clear Hne. change (String.length "") with 0%nat.
  induction Hall as [| s labels -> _ IH]; [done |].
  rewrite fmap_cons. simpl. exact IH.
Qed.

(** X7. With [minor_rotation] "auto", a deepest level whose sanitized
    labels are all empty makes the pass raise [ZeroDivisionError] before
    any tick is set, even when the minor ticks are suppressed. *)
Theorem empty_labels_divide_by_zero uminor umajor udata :
  1 ≤ levels →
  pairs (levels - 1) ≠ [] →
  labels_of (levels - 1) ≠ [] →
  Forall (λ s, s = ""%string) (labels_of (levels - 1)) →
  is_auto minor_rotation = true →
  outcome_of (bar_labels uminor umajor udata) = Raise ZeroDivisionError
  ∧ calls_of (bar_labels uminor umajor udata)
    = (if udata then [set_ylabel ""] else [])
      ++ [locator_params (value_axis vertical) 5;
          set_major_formatter (value_axis vertical)].
Proof.
  intros HL Hpairs Hne Hall Hauto.
  destruct (plot_bar_labels_calls uminor umajor udata) as [-> ->].
  rewrite prelude_axes.
  assert (∃ rest, level_window levels = (levels - 1) :: rest) as [rest ->].
  { destruct (level_window_cases levels) as [[? _] | [[-> ->] | [_ ->]]];
      [lia | by exists [] | eauto]. }
  rewrite (for_levels_cons get_max_bar_position text_positions
             sanitize_ml_labels df vertical levels bar_width space_width
             minor_rotation major_rotation custom_defaults).
  assert (level_run uminor umajor (levels - 1) ∅ []
          = (Raise ZeroDivisionError, [])) as ->;
    [| by rewrite app_nil_r].
  unfold process_level, mbind, Eff_bind, lift.
  rewrite (py_unzip_nonempty _ Hpairs), (py_max_all_empty _ Hne Hall).
  rewrite (bool_decide_eq_true_2 (levels - 1 = levels - 1)) by done.
  unfold adapted_minor_rotation, and3, count_le, py_div. rewrite Hauto.
  by destruct vertical.
Qed.

(** ** The rotations and labels applied *)

Lemma adapted_minor_rotation_allowed v w minor labels m r a :
  adapted_minor_rotation v w minor labels m r = Ok a → rotation_allowed r a.
Proof.
  unfold rotation_allowed. destruct (is_auto r) eqn:Hauto.
  - by apply adapted_minor_rotation_auto_values.
  - by apply adapted_minor_rotation_fixed.
Qed.

Lemma adapted_major_rotation_allowed v w minor labels m r a :
  adapted_major_rotation v w minor labels m r = Ok a → rotation_allowed r a.
Proof.
  unfold rotation_allowed. destruct (is_auto r) eqn:Hauto.
  - by apply adapted_major_rotation_auto_values.
  - by apply adapted_major_rotation_fixed.
Qed.

(** X8. Whatever the outcome, every label rotation that a pass gives to
    the minor ticks is [minor_rotation] itself, or one of 0 and 90 when
    [minor_rotation] is "auto"; likewise for the major ticks and
    [major_rotation]. *)
Theorem rotations_applied uminor umajor udata :
  Forall (rotation_allowed minor_rotation)
    (rotations_of Minor (calls_of (bar_labels uminor umajor udata)))
  ∧ Forall (rotation_allowed major_rotation)
      (rotations_of Major (calls_of (bar_labels uminor umajor udata))).
Proof.
  destruct (plot_bar_labels_calls uminor umajor udata) as [-> _].
  unfold rotations_of. rewrite !bind_app, !Forall_app, !Forall_bind.
  assert (Forall (λ c, Forall (rotation_allowed minor_rotation)
                         (rotation_of_call Minor c)
                       ∧ Forall (rotation_allowed major_rotation)
                           (rotation_of_call Major c))
            (levels_run uminor umajor (level_window levels) ∅ []).2) as Hloop.
  { destruct (for_levels_adds get_max_bar_position text_positions
                sanitize_ml_labels df vertical levels bar_width space_width
                minor_rotation major_rotation custom_defaults
                (λ c, Forall (rotation_allowed minor_rotation)
                        (rotation_of_call Minor c)
                      ∧ Forall (rotation_allowed major_rotation)
                          (rotation_of_call Major c))
                uminor umajor (level_window levels))
      with (seen := (∅ : gset Qc)) (log := @nil axes_call)
      as (new & -> & Hnew); [| done].
    intros level seen _ log. level_paths.
    all: try (exists []; rewrite app_nil_r; split; [done | constructor]).
    all: eexists; split; [reflexivity |].
    all: repeat match goal with
                | H : adapted_minor_rotation _ _ _ _ _ _ = Ok _ |- _ =>
                    apply adapted_minor_rotation_allowed in H
                | H : adapted_major_rotation _ _ _ _ _ _ = Ok _ |- _ =>
                    apply adapted_major_rotation_allowed in H
                end.
    all: repeat first [apply Forall_nil_2 | apply Forall_cons_2]; simpl.
    all: split; repeat constructor; done. }
  repeat split.
  - unfold prelude. destruct udata, vertical; repeat constructor.
  - eapply Forall_impl; [exact Hloop | by intros c [? _]].
  - unfold prelude. destruct udata, vertical; repeat constructor.
  - eapply Forall_impl; [exact Hloop | by intros c [_ ?]].
Qed.

Lemma tick_labels_of_app (log new : Axes) :
  tick_labels_of (log ++ new) = tick_labels_of log ++ tick_labels_of new.
Proof. unfold tick_labels_of. apply bind_app. Qed.

Lemma process_level_labels uminor umajor level seen seen' new :
  level_run uminor umajor level seen [] = (Ok seen', new) →
  tick_labels_of new
  = if suppressed levels uminor umajor level then []
    else [(labels_of level, bool_decide (level = levels - 1))].
Proof.
  unfold suppressed. level_paths.
  all: repeat match goal with H : _ = _ |- _ => rewrite H end; try done.
  all: match goal with
       | H : bool_decide ?P && true = false,
         H' : negb (bool_decide ?P) && true = false |- _ =>
           by destruct (bool_decide P)
       | _ => idtac
       end.
Qed.

(** X9. When a pass returns normally, the tick-label calls it has made
    are those of the levels of the window that are not suppressed,
    deepest level first, each with the sanitized labels of its level and
    flagged [minor] exactly for the deepest level. *)
Theorem labels_emitted_deepest_first uminor umajor udata :
  outcome_of (bar_labels uminor umajor udata) = Ok tt →
  tick_labels_of (calls_of (bar_labels uminor umajor udata))
  = (λ level, (labels_of level, bool_decide (level = levels - 1)))
      <$> filter (λ level, suppressed levels uminor umajor level = false)
            (level_window levels).
Proof.
  destruct (plot_bar_labels_calls uminor umajor udata) as [-> ->].
  rewrite tick_labels_of_app.
  replace (tick_labels_of (prelude vertical udata)) with
    (@nil (list string * bool)) by (by destruct udata, vertical).
  simpl. generalize (∅ : gset Qc) as seen.
  induction (level_window levels) as [| level window IH]; intros seen;
    [done |].
  rewrite (for_levels_cons get_max_bar_position text_positions
             sanitize_ml_labels df vertical levels bar_width space_width
             minor_rotation major_rotation custom_defaults).
  pose proof (process_level_labels uminor umajor level seen) as Hlevel.
  destruct (level_run uminor umajor level seen []) as [[seen' | e] new];
    [| done].
  rewrite for_levels_frame. simpl. intros Hok.
  rewrite tick_labels_of_app, (Hlevel seen' new eq_refl), (IH seen' Hok).
  rewrite filter_cons.
  destruct (suppressed levels uminor umajor level);
    [by rewrite decide_False | by rewrite decide_True].
Qed.

(** ** Degenerate windows *)

(** X17. When [levels] is zero or negative the loop does not run:
    [text_positions] is never consulted, whatever it would answer, and
    once [get_max_bar_position] has returned the pass formats the value
    axis and returns normally. *)
Theorem no_levels_no_ticks uminor umajor udata log :
  levels ≤ 0 →
  bar_labels uminor umajor udata log
  = (Ok tt,
     log ++ (if udata then [set_ylabel ""] else [])
     ++ [locator_params (value_axis vertical) 5;
         set_major_formatter (value_axis vertical)]).
Proof.
  intros HL. unfold plot_bar_labels.
  destruct (level_window_cases levels) as [[_ ->] | [[? _] | [? _]]];
    [| lia..].
  unfold mbind, Eff_bind, call, mret, Eff_ret.
  destruct udata, vertical; simpl; by rewrite <- ?app_assoc.
Qed.

Lemma adapted_major_rotation_on_minor v w labels m r :
  ∃ a, adapted_major_rotation v w true labels m r = Ok a.
Proof.
  unfold adapted_major_rotation, and3. simpl.
  destruct (is_auto r); simpl; eauto.
Qed.

(** X18. A table with a single level has only a minor level: the pass
    makes the same calls and has the same outcome whatever
    [major_rotation] is. *)
Theorem single_level_ignores_major_rotation (major_rotation' : rotation)
    uminor umajor udata log :
  levels = 1 →
  bar_labels uminor umajor udata log
  = plot_bar_labels get_max_bar_position text_positions sanitize_ml_labels df
      vertical levels bar_width space_width minor_rotation major_rotation'
      uminor umajor udata custom_defaults log.
Proof.
  intros HL.
  assert (∀ seen log,
            level_run uminor umajor 0 seen log
            = process_level get_max_bar_position text_positions
                sanitize_ml_labels df vertical levels bar_width space_width
                minor_rotation major_rotation' uminor umajor custom_defaults
                0 seen log) as Hlevel.
  { intros seen log0. unfold process_level.
    rewrite (bool_decide_eq_true_2 (0 = levels - 1)) by lia.
    unfold mbind, Eff_bind, lift.
    destruct (py_unzip (pairs 0)) as [[ps ls] | e]; [| done]. simpl.
    destruct (py_max _) as [m | e]; [| done].
    destruct (adapted_minor_rotation _ _ _ _ _ _) as [a | e]; [| done].
    destruct (adapted_major_rotation_on_minor vertical width
                (sanitize_ml_labels custom_defaults ls) m major_rotation)
      as [b ->].
    destruct (adapted_major_rotation_on_minor vertical width
                (sanitize_ml_labels custom_defaults ls) m major_rotation')
      as [b' ->].
    unfold emit_level. by destruct uminor, vertical. }
  assert (level_window levels = [0]) as Hwindow by (by subst levels).
  clear HL. unfold plot_bar_labels. rewrite Hwindow. simpl for_levels.
  unfold mbind, Eff_bind, call, mret, Eff_ret.
  destruct udata, vertical; cbn -[process_level]; by rewrite Hlevel.
Qed.

End bar_labels_composition.

Lemma pass_succeeds_witness :
  outcome_of (run_fixture two_groups true 2 auto auto false false true) = Ok tt.
Proof.
  apply (pass_succeeds fx_get_max_bar_position fx_text_positions fx_sanitize
           two_groups true 2 (qc 3 10) (qc 1 10) auto auto [] false false true).
  - intros level [-> | ->]%level_window_2; (split; [done |]).
    + exists "x"%string. split; [by_evaluation | done].
    + exists "A"%string. split; [by_evaluation | done].
  - by intros s [= <-].
Defined.

Lemma only_last_two_levels_read_witness :
  run_fixture two_groups true 2 auto auto false false true []
  = plot_bar_labels fx_get_max_bar_position
      (λ _, fx_text_positions two_groups_above) fx_sanitize two_groups true 2
      (qc 3 10) (qc 1 10) auto auto false false true [] [].
Proof.
  apply (only_last_two_levels_read fx_get_max_bar_position fx_text_positions
           fx_sanitize two_groups true 2 (qc 3 10) (qc 1 10) auto auto []
           (λ _, fx_text_positions two_groups_above) false false true []).
  intros level H0 H2. assert (level = 0 ∨ level = 1) as [-> | ->] by lia;
    reflexivity.
Defined.

(** The pass over the table without rows fails for want of labels. *)
Lemma pass_failures_witness :
  ∃ level,
    level ∈ level_window 1
    ∧ (fx_text_positions empty_table (qc 3 10) (qc 1 10) level = []
       ∨ fx_sanitize []
           (fx_text_positions empty_table (qc 3 10) (qc 1 10) level).*2 = []).
Proof.
  destruct (pass_failures fx_get_max_bar_position fx_text_positions
              fx_sanitize empty_table true 1 (qc 3 10) (qc 1 10) auto auto []
              false false true ValueError)
    as [[_ H] | [[H _] | [H _]]]; [by_evaluation | exact H | done | done].
Defined.

Lemma empty_labels_divide_by_zero_witness :
  outcome_of (run_fixture blank_label false 1 auto ninety true false false)
  = Raise ZeroDivisionError
  ∧ calls_of (run_fixture blank_label false 1 auto ninety true false false)
    = [locator_params AxisX 5; set_major_formatter AxisX].
Proof.
  apply (empty_labels_divide_by_zero fx_get_max_bar_position fx_text_positions
           fx_sanitize blank_label false 1 (qc 3 10) (qc 1 10) auto ninety []
           true false false).
  - done.
  - done.
  - done.
  - by repeat constructor.
  - reflexivity.
Defined.

(** On [two_groups] with the minor ticks suppressed, only the labels of
    the major level are set. *)
Lemma labels_emitted_deepest_first_witness :
  tick_labels_of
    (calls_of (run_fixture two_groups true 2 auto auto true false true))
  = [(["A"; "B"]%string, false)].
Proof.
  etransitivity.
  - apply (labels_emitted_deepest_first fx_get_max_bar_position
             fx_text_positions fx_sanitize two_groups true 2 (qc 3 10)
             (qc 1 10) auto auto [] true false true).
    by_evaluation.
  - reflexivity.
Defined.



(** * Further properties of [plot_boxplots] *)

Section boxplots_composition.
Context {DataFrame : Type}.
Variable bar_positions :
  DataFrame → Qc → Qc → list (Qc * Qc * Qc * list string).
Variable best_match : ∀ V : Type, dict V → list string → result V.
Variables (df : DataFrame) (bar_width space_width : Qc).
Variables (alphas : dict Qc) (colors : dict string).
Variable hatch : option (dict string).
Variable top_index : string.

Abbreviation one_bar := (plot_one best_match bar_width alphas colors hatch top_index).
Abbreviation bars_run := (for_bars best_match bar_width alphas colors hatch top_index).
Abbreviation boxplots :=
  (plot_boxplots bar_positions best_match df bar_width space_width alphas
     colors hatch top_index).

(** Drawing a bar appends at most one call, and does not depend on what
    has been drawn before. *)
Lemma plot_one_frame bar log :
  one_bar bar log = ((one_bar bar []).1, log ++ (one_bar bar []).2).
Proof.
  destruct bar as [[[x y] std] index]. unfold plot_one. eff_unfold.
  repeat case_match; simplify_eq; simpl; by rewrite ?app_nil_r.
Qed.

Lemma plot_one_draws bar new :
  one_bar bar [] = (Ok tt, new) → ∃ c, new = [c] ∧ draws bar_width bar c.
Proof.
  destruct bar as [[[x y] std] index]. unfold plot_one. eff_unfold.
  repeat case_match; simplify_eq; simpl; try done.
  intros [= <-]. eexists. split; [done |]. simpl.
  repeat split. by apply py_last_Ok.
Qed.

Lemma plot_one_raises_nothing_drawn bar e new :
  one_bar bar [] = (Raise e, new) → new = [].
Proof.
  destruct bar as [[[x y] std] index]. unfold plot_one. eff_unfold.
  repeat case_match; simplify_eq; simpl; try done; by intros [= <-].
Qed.

Lemma for_bars_cons bar bars log :
  bars_run (bar :: bars) log
  = match one_bar bar log with
    | (Ok _, log') => bars_run bars log'
    | (Raise e, log') => (Raise e, log')
    end.
Proof. reflexivity. Qed.

(** X11. When a pass returns normally it has drawn every bar exactly
    once, in the order of the table: the calls match the bars one to one,
    each with its bar's position, height, error bar, the common bar width,
    and the leaf of its index as label. *)
Theorem one_box_per_bar :
  outcome_of boxplots = Ok tt →
  Forall2 (draws bar_width) (bar_positions df bar_width space_width)
    (calls_of boxplots).
Proof.
  unfold plot_boxplots, outcome_of, calls_of.
  assert (∀ bars log log',
            bars_run bars log = (Ok tt, log') →
            ∃ new, log' = log ++ new ∧ Forall2 (draws bar_width) bars new)
    as Hloop.
  { induction bars as [| bar bars IH]; intros log log'.
    - intros [= <-]. exists []. by rewrite app_nil_r.
    - rewrite for_bars_cons, plot_one_frame.
      pose proof (plot_one_draws bar) as Hdraw.
      destruct (one_bar bar []) as [[[] | e] new]; [| done]. simpl.
      destruct (Hdraw new eq_refl) as (c & -> & Hc).
      intros (rest & -> & Hrest)%IH.
      exists (c :: rest). rewrite <- app_assoc. split; [done |].
      by constructor. }
  destruct (bars_run (bar_positions df bar_width space_width) [])
    as [[[] | e] log'] eqn:E; [| done].
  intros _. by destruct (Hloop _ _ _ E) as (new & -> & ?).
Qed.

(** X12. A pass stops at the first bar that it cannot style: the bars
    before it have been drawn (one call each, as if the table ended
    there), the failing bar and the bars after it have not, and the error
    is the one raised for the failing bar. *)
Theorem stops_at_first_failing_bar e :
  outcome_of boxplots = Raise e →
  ∃ drawn bar rest,
    bar_positions df bar_width space_width = drawn ++ bar :: rest
    ∧ bars_run drawn [] = (Ok tt, calls_of boxplots)
    ∧ outcome_of (one_bar bar) = Raise e.
Proof.
  unfold plot_boxplots, outcome_of, calls_of.
  assert (∀ bars log,
            (bars_run bars log).1 = Raise e →
            ∃ drawn bar rest,
              bars = drawn ++ bar :: rest
              ∧ bars_run drawn log = (Ok tt, (bars_run bars log).2)
              ∧ (one_bar bar []).1 = Raise e) as Hloop.
  { induction bars as [| bar bars IH]; intros log; [done |].
    rewrite for_bars_cons, plot_one_frame.
    pose proof (plot_one_raises_nothing_drawn bar) as Hnone.
    destruct (one_bar bar []) as [[[] | e'] new] eqn:E; simpl.
    - intros (drawn & b & rest & -> & Hdrawn & Hb)%IH.
      exists (bar :: drawn), b, rest. split; [done |].
      rewrite for_bars_cons, plot_one_frame, E. simpl. by rewrite Hdrawn.
    - intros [= <-]. exists [], bar, bars. rewrite E.
      rewrite (Hnone e' new eq_refl), app_nil_r. done. }
  apply Hloop.
Qed.

(** X13. When the leaf of every bar's index is a key of the alpha map, of
    the colour map and of the hatch map (if one is given), a pass never
    needs the best-match resolver: whatever that would answer, the pass
    returns normally and draws each bar with the styles of its leaf. *)
Theorem leaf_keys_need_no_best_match (calls : list boxplot_call) :
  Forall2 (λ bar c, leaf_styled bar_width alphas colors hatch bar = Some c)
    (bar_positions df bar_width space_width) calls →
  boxplots [] = (Ok tt, calls).
Proof.
  unfold plot_boxplots. generalize (bar_positions df bar_width space_width).
  intros bars Hstyled.
  assert (∀ log, bars_run bars log = (Ok tt, log ++ calls)) as Hloop;
    [| by rewrite Hloop].
  induction Hstyled as [| bar c bars calls Hbar _ IH]; intros log.
  - simpl. unfold mret, Eff_ret. by rewrite app_nil_r.
  - rewrite for_bars_cons.
    assert (one_bar bar log = (Ok tt, log ++ [c])) as ->.
    { destruct bar as [[[x y] std] index]. unfold leaf_styled in Hbar.
      destruct (last index) as [leaf |] eqn:Hleaf; [| done]. simpl in Hbar.
      destruct (dict_get alphas (KStr leaf)) as [alpha |] eqn:Ha; [| done].
      destruct (dict_get colors (KStr leaf)) as [color |] eqn:Hc; [| done].
      simpl in Hbar.
      apply py_last_Ok in Hleaf.
      unfold plot_one, resolve_hatch, resolve_style, mbind, Eff_bind, lift,
        call.
      destruct hatch as [d |]; simpl in Hbar.
      - destruct (dict_get d (KStr leaf)) as [v |] eqn:Hd; [| done].
        simpl in Hbar. rewrite !Hleaf. simpl. rewrite Ha, Hc, Hd. simpl.
        by simplify_eq.
      - rewrite !Hleaf. simpl. rewrite Ha, Hc. by simplify_eq. }
    rewrite IH, <- app_assoc. done.
Qed.
End boxplots_composition.

Lemma one_box_per_bar_witness :
  Forall2 (draws (qc 3 10)) two_bars
    (calls_of (plot_boxplots fx_bar_positions no_match two_bars (qc 3 10)
                 (qc 1 10) leaf_alphas leaf_colours None "model")).
Proof.
  apply (one_box_per_bar fx_bar_positions no_match two_bars (qc 3 10)
           (qc 1 10) leaf_alphas leaf_colours None "model").
  reflexivity.
Defined.

(** With an alpha map that lacks the leaf "y" and a resolver that finds
    nothing, the first bar is drawn and the second is not. *)
Lemma stops_at_first_failing_bar_witness :
  ∃ drawn bar rest,
    two_bars = drawn ++ bar :: rest
    ∧ for_bars no_match (qc 3 10) partial_alphas leaf_colours None "model"
        drawn []
      = (Ok tt,
         calls_of (plot_boxplots fx_bar_positions no_match two_bars (qc 3 10)
                     (qc 1 10) partial_alphas leaf_colours None "model"))
    ∧ outcome_of (plot_one no_match (qc 3 10) partial_alphas leaf_colours
                    None "model" bar)
      = Raise NoStyleMatch.
Proof.
  apply (stops_at_first_failing_bar fx_bar_positions no_match two_bars
           (qc 3 10) (qc 1 10) partial_alphas leaf_colours None "model"
           NoStyleMatch).
  reflexivity.
Defined.

Lemma leaf_keys_need_no_best_match_witness :
  plot_boxplots fx_bar_positions no_match two_bars (qc 3 10) (qc 1 10)
    leaf_alphas leaf_colours (Some leaf_colours) "model" []
  = (Ok tt,
     [BoxplotCall (qc 1 1) (qc 7 10) (qc 1 10) (qc 3 10) (qc 1 2) "red"
        (Some "red"%string) "x";
      BoxplotCall (qc 2 1) (qc 9 10) (qc 1 20) (qc 3 10) (qc 9 10) "navy"
        (Some "navy"%string) "y"]).
Proof.
  apply (leaf_keys_need_no_best_match fx_bar_positions no_match two_bars
           (qc 3 10) (qc 1 10) leaf_alphas leaf_colours (Some leaf_colours)
           "model").
  repeat constructor.
Defined.

(** * [find_version] *)

Lemma strip_prefix_app (literal s : text) :
  strip_prefix literal (literal ++ s) = Some s.
Proof.
  induction literal as [| a literal IH]; simpl; [by destruct s |].
  by rewrite decide_True.
Qed.

Lemma strip_prefix_Some (literal s rest : text) :
  strip_prefix literal s = Some rest → s = literal ++ rest.
Proof.
  revert s. induction literal as [| a literal IH]; intros s; simpl.
  - destruct s; by intros [= <-].
  - destruct s as [| b s]; [done |].
    case_decide; [| done]. subst. by intros ->%IH.
Qed.

Lemma until_quote_app (v rest : text) (q : Ascii.ascii) :
  quote_free v → is_quote q = true → until_quote (v ++ q :: rest) = Some v.
Proof.
  intros Hv Hq. induction Hv as [| c v Hc _ IH]; simpl.
  - by rewrite Hq.
  - by rewrite Hc, IH.
Qed.

Lemma until_quote_Some (s v : text) :
  until_quote s = Some v →
  ∃ q rest, s = v ++ q :: rest ∧ is_quote q = true ∧ quote_free v.
Proof.
  revert v. induction s as [| c s IH]; intros v; simpl; [done |].
  destruct (is_quote c) eqn:Hc.
  - intros [= <-]. exists c, s. by repeat split; [| constructor].
  - destruct (until_quote s) as [v' |]; [| done]. simpl. intros [= <-].
    destruct (IH v' eq_refl) as (q & rest & -> & Hq & Hv).
    exists q, rest. by repeat split; [| constructor].
Qed.

Lemma version_pattern_at_Some (s v : text) :
  version_pattern_at s = Some v →
  ∃ q1 q2 rest,
    s = version_literal ++ q1 :: v ++ q2 :: rest
    ∧ is_quote q1 = true ∧ is_quote q2 = true ∧ quote_free v.
Proof.
  unfold version_pattern_at.
  destruct (strip_prefix version_literal s) as [r |] eqn:E; [| done].
  apply strip_prefix_Some in E as ->. simpl.
  destruct r as [| q1 r]; [done |]. destruct (is_quote q1) eqn:H1; [| done].
  intros (q2 & rest & -> & H2 & Hv)%until_quote_Some. eauto 10.
Qed.

Lemma re_search_Some (line_start : bool) (s v : text) :
  re_search line_start s = Some v →
  ∃ pre q1 q2 rest,
    s = pre ++ version_literal ++ q1 :: v ++ q2 :: rest
    ∧ (pre = [] ∧ line_start = true ∨ ∃ pre0, pre = pre0 ++ [newline])
    ∧ is_quote q1 = true ∧ is_quote q2 = true ∧ quote_free v.
Proof.
  revert line_start. induction s as [| c s IH]; intros line_start.
  - simpl. destruct line_start; [| done].
    destruct (version_pattern_at []) as [v' |] eqn:E; [| done].
    intros [= ->].
    apply version_pattern_at_Some in E as (q1 & q2 & rest & E & ?).
    exists [], q1, q2, rest. split; [done |]. split; [by left | done].
  - cbn [re_search].
    destruct (if line_start then version_pattern_at (c :: s) else None)
      as [v' |] eqn:E.
    + intros [= ->]. destruct line_start; [| done].
      apply version_pattern_at_Some in E as (q1 & q2 & rest & E & ?).
      exists [], q1, q2, rest. split; [done |]. split; [by left | done].
    + intros (pre & q1 & q2 & rest & -> & Hpre & ?)%IH.
      exists (c :: pre), q1, q2, rest. split; [done |]. split; [| done].
      right. destruct Hpre as [[-> Hc%bool_decide_eq_true] | [pre0 ->]].
      * exists []. by subst.
      * by exists (c :: pre0).
Qed.

(** X15. Whatever [find_version] returns is group 1 of a match: the file
    holds, at the beginning of a line, the literal [__version__ = ], a
    quote, the version returned, and a quote; the two quotes need not be
    the same, and the version holds no quote of either kind. *)
Theorem find_version_sound (read : list string → text)
    (file_paths : list string) (version : text) :
  find_version read file_paths = inr version →
  ∃ pre q1 q2 rest,
    read file_paths = pre ++ version_literal ++ q1 :: version ++ q2 :: rest
    ∧ whole_lines pre
    ∧ is_quote q1 = true ∧ is_quote q2 = true ∧ quote_free version.
Proof.
  unfold find_version.
  destruct (re_search true (read file_paths)) as [v |] eqn:E; [| done].
  intros [= <-].
  apply re_search_Some in E as (pre & q1 & q2 & rest & -> & Hpre & ?).
  exists pre, q1, q2, rest. split; [done |]. split; [| done].
  destruct Hpre as [[-> _] | ?]; [by left | by right].
Qed.

Lemma version_pattern_at_here (v rest : text) (q1 q2 : Ascii.ascii) :
  is_quote q1 = true → is_quote q2 = true → quote_free v →
  version_pattern_at (version_literal ++ q1 :: v ++ q2 :: rest) = Some v.
Proof.
  intros H1 H2 Hv. unfold version_pattern_at.
  rewrite strip_prefix_app. simpl. rewrite H1. by apply until_quote_app.
Qed.

(** Inside a line that holds no quote the pattern cannot match: the
    literal has no newline, so it and the quote after it would have to lie
    within the line. *)
Lemma strip_prefix_within (literal line t r : text) :
  newline ∉ literal →
  strip_prefix literal (line ++ newline :: t) = Some r →
  ∃ line', line = literal ++ line' ∧ r = line' ++ newline :: t.
Proof.
  revert line. induction literal as [| a literal IH]; intros line Hnl; simpl.
  - destruct (line ++ newline :: t) eqn:E; intros [= <-]; by exists line.
  - destruct line as [| b line]; simpl.
    + case_decide; [| done]. subst. destruct Hnl. by left.
    + case_decide; [| done]. subst. intros H.
      destruct (IH line) as (line' & -> & ->); [| done |].
      * intros ?. apply Hnl. by right.
      * by exists line'.
Qed.

Lemma version_pattern_at_quote_free_line (line t : text) :
  quote_free line → version_pattern_at (line ++ newline :: t) = None.
Proof.
  intros Hline. unfold version_pattern_at.
  destruct (strip_prefix version_literal (line ++ newline :: t)) as [r |] eqn:E;
    [| done].
  apply strip_prefix_within in E as (line' & -> & ->); [| by_evaluation].
  apply Forall_app in Hline as [_ Hline']. simpl.
  destruct Hline' as [| c line' Hc _]; simpl; [done | by rewrite Hc].
Qed.

Lemma re_search_skip (line_start : bool) (pre0 t : text) :
  quote_free pre0 →
  re_search line_start (pre0 ++ newline :: t) = re_search true t.
Proof.
  intros Hpre. revert line_start.
  induction Hpre as [| c pre0 Hc Hpre0 IH]; intros line_start.
  - change ([] ++ newline :: t) with (newline :: t). cbn [re_search].
    rewrite bool_decide_eq_true_2 by done.
    destruct line_start; [| done].
    pose proof (version_pattern_at_quote_free_line [] t) as H.
    change ([] ++ newline :: t) with (newline :: t) in H.
    by rewrite H by constructor.
  - change ((c :: pre0) ++ newline :: t) with (c :: (pre0 ++ newline :: t)).
    cbn [re_search]. rewrite IH.
    destruct line_start; [| done].
    change (c :: (pre0 ++ newline :: t)) with ((c :: pre0) ++ newline :: t).
    by rewrite version_pattern_at_quote_free_line by (by constructor).
Qed.

(** X14. Round trip: if the file is made of whole lines without any quote,
    followed by a line that begins with [__version__ = ], a quote, a
    version without quotes, and a quote, then [find_version] returns that
    version, whatever follows it (a second assignment included) and
    whether or not the two quotes are the same. *)
Theorem find_version_round_trip (read : list string → text)
    (file_paths : list string) (pre version rest : text) (q1 q2 : Ascii.ascii) :
  read file_paths = pre ++ version_literal ++ q1 :: version ++ q2 :: rest →
  whole_lines pre → quote_free pre →
  is_quote q1 = true → is_quote q2 = true → quote_free version →
  find_version read file_paths = inr version.
Proof.
  intros Hread Hwhole Hpre H1 H2 Hv. unfold find_version. rewrite Hread.
  assert (re_search true
            (pre ++ version_literal ++ q1 :: version ++ q2 :: rest)
          = Some version) as ->; [| done].
  assert (re_search true (version_literal ++ q1 :: version ++ q2 :: rest)
          = Some version) as Hhere.
  { change (version_literal ++ q1 :: version ++ q2 :: rest) with
      (Ascii.ascii_of_nat 95 :: tl version_literal ++ q1 :: version ++ q2 :: rest).
    cbn [re_search].
    change (Ascii.ascii_of_nat 95 :: tl version_literal ++ q1 :: version ++ q2 :: rest)
      with (version_literal ++ q1 :: version ++ q2 :: rest).
    by rewrite version_pattern_at_here. }
  destruct Hwhole as [-> | [pre0 ->]]; [done |].
  apply Forall_app in Hpre as [Hpre0 _].
  rewrite <- (app_assoc pre0 [newline]), <- cons_middle.
  by rewrite re_search_skip.
Qed.

Lemma re_search_None (line_start : bool) (s : text) :
  Forall (λ line, strip_prefix version_literal line = None)
    (line_starts line_start s) →
  re_search line_start s = None.
Proof.
  revert line_start. induction s as [| c s IH]; intros line_start.
  - by destruct line_start.
  - cbn [re_search line_starts]. intros [Hhere Hrest]%Forall_app.
    rewrite (IH _ Hrest). destruct line_start; [| done].
    apply Forall_cons in Hhere as [H _].
    unfold version_pattern_at. by rewrite H.
Qed.

(** X16. When no line of the file begins with [__version__ = ], for
    instance because the assignment is indented, [find_version] raises
    [RuntimeError] with its fixed message. *)
Theorem find_version_missing (read : list string → text)
    (file_paths : list string) :
  Forall (λ line, strip_prefix version_literal line = None)
    (line_starts true (read file_paths)) →
  find_version read file_paths
  = inl (RuntimeError "Unable to find version string.").
Proof. intros H. unfold find_version. by rewrite re_search_None. Qed.

(** The first assignment of [version_file_text] is found, although its
    quotes differ and a second assignment follows. *)
Lemma find_version_round_trip_witness :
  find_version (λ _, version_file_text) ["barplots"; "__version__.py"]%string
  = inr (String.list_ascii_of_string "1.2.3").
Proof.
  apply (find_version_round_trip (λ _, version_file_text)
           ["barplots"; "__version__.py"]%string
           (String.list_ascii_of_string "# barplots" ++ [newline])
           (String.list_ascii_of_string "1.2.3")
           (newline :: version_literal ++ [double_quote]
            ++ String.list_ascii_of_string "9.9" ++ [double_quote; newline])
           double_quote single_quote).
  - reflexivity.
  - right. by exists (String.list_ascii_of_string "# barplots").
  - by_evaluation.
  - reflexivity.
  - reflexivity.
  - by_evaluation.
Defined.

Lemma find_version_sound_witness :
  ∃ pre q1 q2 rest,
    version_file_text
    = pre ++ version_literal
      ++ q1 :: String.list_ascii_of_string "1.2.3" ++ q2 :: rest
    ∧ whole_lines pre
    ∧ is_quote q1 = true ∧ is_quote q2 = true
    ∧ quote_free (String.list_ascii_of_string "1.2.3").
Proof.
  apply (find_version_sound (λ _, version_file_text)
           ["barplots"; "__version__.py"]%string
           (String.list_ascii_of_string "1.2.3")).
  reflexivity.
Defined.

(** An indented assignment is not found. *)
Lemma find_version_missing_witness :
  find_version (λ _, indented_version_text)
    ["barplots"; "__version__.py"]%string
  = inl (RuntimeError "Unable to find version string.").
Proof.
  apply (find_version_missing (λ _, indented_version_text)
           ["barplots"; "__version__.py"]%string).
  by_evaluation.
Defined.

(** No level declared: nothing is asked of the position calculator. *)
Lemma no_levels_no_ticks_witness :
  run_fixture empty_table true 0 auto auto false false true []
  = (Ok tt,
     [set_ylabel ""; locator_params AxisY 5; set_major_formatter AxisY]).
Proof.
  apply (no_levels_no_ticks fx_get_max_bar_position fx_text_positions
           fx_sanitize empty_table true 0 (qc 3 10) (qc 1 10) auto auto []
           false false true []).
  done.
Defined.

Lemma single_level_ignores_major_rotation_witness :
  run_fixture three_labels true 1 auto auto false false true []
  = run_fixture three_labels true 1 auto ninety false false true [].
Proof.
  apply (single_level_ignores_major_rotation fx_get_max_bar_position
           fx_text_positions fx_sanitize three_labels true 1 (qc 3 10)
           (qc 1 10) auto auto [] ninety false false true []).
  done.
Defined.
